(** * dotgirl: a shallow embedding of the dotfile manager and its filesystems

    Sources: [src/main.rs] (bundles, lock file, [link], [cmd_link],
    [cmd_add], [get_name]), [src/util.rs] ([get_name]) and [src/disk.rs]
    (the [Filesystem] trait and its in-memory realization
    [MemoryFilesystem]).

    Strings are Rocq [string]s; a Rust [HashMap<String, _>] is a stdpp
    [gmap string _]. *)

From Stdlib Require Import String Ascii List.
From stdpp Require Import base gmap strings list.
Import ListNotations.

Local Open Scope string_scope.

(* ================================================================== *)
(** ** Rust string and path primitives *)
Module RustStr.

(** [str::starts_with]. *)
Fixpoint starts_with (s pat : string) : bool :=
  match pat, s with
  | EmptyString, _ => true
  | String c pat', String d s' => Ascii.eqb c d && starts_with s' pat'
  | String _ _, EmptyString => false
  end.

(** [s[n..]]. *)
Fixpoint drop (n : nat) (s : string) : string :=
  match n, s with
  | O, _ => s
  | S n', String _ s' => drop n' s'
  | S _, EmptyString => EmptyString
  end.

(** [str::trim_start_matches] with a [&str] pattern: strips the pattern
    repeatedly from the front; an empty pattern leaves the string as it
    is. Each step removes at least one character, so [length s + 1]
    rounds are enough. *)
Fixpoint trim_start_matches_go (fuel : nat) (s pat : string) : string :=
  match fuel with
  | O => s
  | S fuel' =>
      if String.eqb pat "" then s
      else if starts_with s pat
           then trim_start_matches_go fuel' (drop (String.length pat) s) pat
           else s
  end.

Definition trim_start_matches (s pat : string) : string :=
  trim_start_matches_go (S (String.length s)) s pat.

(** [str::ends_with('/')]. *)
Fixpoint ends_with_slash (s : string) : bool :=
  match s with
  | EmptyString => false
  | String c EmptyString => Ascii.eqb c "/"
  | String _ s' => ends_with_slash s'
  end.

(** Splitting on ['/'], as [Path::components] scans the bytes. *)
Fixpoint split_slash (s : string) : list string :=
  match s with
  | EmptyString => [EmptyString]
  | String c s' =>
      if Ascii.eqb c "/" then EmptyString :: split_slash s'
      else match split_slash s' with
           | [] => [String c EmptyString]
           | x :: xs => String c x :: xs
           end
  end.

(** A byte in [lo..=hi]. *)
Definition in_range (c : ascii) (lo hi : nat) : bool :=
  Nat.leb lo (nat_of_ascii c) && Nat.leb (nat_of_ascii c) hi.

(** [OsStr::to_str] succeeds, i.e. [str::from_utf8] accepts the bytes:
    well-formed UTF-8 as [core::str::validations] checks it (a lead byte
    [C2..=DF], [E0..=EF] or [F0..=F4] followed by its continuation
    bytes [80..=BF], the second byte narrowed after [E0], [ED], [F0]
    and [F4]: no overlong forms, no surrogates, nothing above
    U+10FFFF). *)
Fixpoint utf8_valid (s : string) : bool :=
  match s with
  | EmptyString => true
  | String a s1 =>
      let n := nat_of_ascii a in
      if Nat.ltb n 128 then utf8_valid s1
      else if Nat.leb 194 n && Nat.leb n 223 then
        match s1 with
        | String b s2 => in_range b 128 191 && utf8_valid s2
        | EmptyString => false
        end
      else if Nat.leb 224 n && Nat.leb n 239 then
        match s1 with
        | String b (String c s3) =>
            in_range b (if Nat.eqb n 224 then 160 else 128)
                       (if Nat.eqb n 237 then 159 else 191)
            && in_range c 128 191 && utf8_valid s3
        | _ => false
        end
      else if Nat.leb 240 n && Nat.leb n 244 then
        match s1 with
        | String b (String c (String d s4)) =>
            in_range b (if Nat.eqb n 240 then 144 else 128)
                       (if Nat.eqb n 244 then 143 else 191)
            && in_range c 128 191 && in_range d 128 191 && utf8_valid s4
        | _ => false
        end
      else false
  end.

End RustStr.

Module RustPath.
Import RustStr.

(** [std::path::Component] on Unix (no prefixes). *)
Inductive Component :=
| RootDir
| CurDir
| ParentDir
| Normal (name : string).

(** [Component::as_os_str]. *)
Definition as_os_str (c : Component) : string :=
  match c with
  | RootDir => "/"
  | CurDir => "."
  | ParentDir => ".."
  | Normal s => s
  end.

(** One body segment of a path: empty segments and ["."] are skipped. *)
Definition parse_segment (seg : string) : option Component :=
  if String.eqb seg "" then None
  else if String.eqb seg "." then None
  else if String.eqb seg ".." then Some ParentDir
  else Some (Normal seg).

(** [Path::components]: a leading ['/'] gives [RootDir]; otherwise a
    leading ["."] followed by ['/'] or the end gives [CurDir]; then the
    segments between separators. *)
Definition components (p : string) : list Component :=
  let start :=
    if starts_with p "/" then [RootDir]
    else if String.eqb p "." || starts_with p "./" then [CurDir]
    else [] in
  start ++ omap parse_segment (split_slash p).

(** [PathBuf::push]: an absolute path replaces the buffer; otherwise a
    separator is added unless the buffer is empty or already ends in
    one. *)
Definition push (buf part : string) : string :=
  if starts_with part "/" then part
  else if String.eqb buf "" || ends_with_slash buf then String.append buf part
  else String.append buf (String.append "/" part).

(** The path built by pushing components onto an empty [PathBuf]; its
    display string is what the programs use as a key. *)
Definition build (cs : list Component) : string :=
  fold_left (fun buf c => push buf (as_os_str c)) cs "".

End RustPath.

(* ================================================================== *)
(** ** [src/main.rs] and [src/util.rs]: [get_name] *)
Module Name.
Import RustStr RustPath.

Inductive Error :=
| LastComponentInvalid (path : string).

(** [get_name] (identical in [main.rs] and [util.rs]): the last path
    component, which [to_str] must accept, with leading ["."] trimmed.
    Both failures carry [path.to_str().unwrap_or("")]. A Rocq string
    is a byte string, as an [OsStr] is on Unix. *)
Definition get_name (path : string) : Error + string :=
  let invalid := LastComponentInvalid (if utf8_valid path then path else "") in
  match last (components path) with
  | None => inl invalid
  | Some c =>
      if utf8_valid (as_os_str c) then inr (trim_start_matches (as_os_str c) ".")
      else inl invalid
  end.

End Name.

(* ================================================================== *)
(** ** [src/disk.rs]: the in-memory [MemoryFilesystem] *)
Module Memory.
Import RustStr RustPath.

(** [enum Entry]. *)
Inductive Entry :=
| File (content : option string)
| Dir
| Symlink.

(** [crate::Error::Simple]. *)
Inductive Error :=
| Simple (msg : string).

(** The thread-local [DISK: HashMap<String, Entry>]. *)
Abbreviation Disk := (gmap string Entry).

(** [fn mkdir_all]: the loop over [parts.components()]; every prefix key
    is set to [Dir], and a [File] or [Symlink] found there only records
    the error in [result]. *)
Fixpoint mkdir_all_go (parts : list Component) (buf : string)
    (result : Error + unit) (disk : Disk) : (Error + unit) * Disk :=
  match parts with
  | [] => (result, disk)
  | part :: parts' =>
      let buf := push buf (as_os_str part) in
      let key := buf in
      let result :=
        match disk !! key with
        | Some (File _) => inl (Simple "file existed")
        | Some Symlink => inl (Simple "symlink existed")
        | _ => result
        end in
      mkdir_all_go parts' buf result (<[key := Dir]> disk)
  end.

Definition mkdir_all (path : string) (disk : Disk) : (Error + unit) * Disk :=
  mkdir_all_go (components path) "" (inr tt) disk.

(** The keys [mkdir_all] visits: the display strings of [buf] after each
    push. *)
Fixpoint prefix_keys (parts : list Component) (buf : string) : list string :=
  match parts with
  | [] => []
  | part :: parts' =>
      let buf := push buf (as_os_str part) in buf :: prefix_keys parts' buf
  end.

(** [fn remove]: collect every key that [starts_with] the path's key,
    then remove each of them. The iteration order of the map does not
    matter for a set of deletions; [map_to_list] is used. *)
Definition remove (path : string) (disk : Disk) : (Error + unit) * Disk :=
  let key := path in
  let to_delete :=
    map fst (filter (fun kv => starts_with kv.1 key = true) (map_to_list disk)) in
  (inr tt, foldl (fun d it => delete it d) disk to_delete).

(** [fn copy]. [ks] is the order in which [disk.keys()] enumerates the
    map (unspecified for a [HashMap]); the claims about [copy] quantify
    over every enumeration of the keys. When the source is missing the
    closure sets [result] and returns, but the function then returns
    [Ok(())]. [disk[&from]] cannot panic: keys are only ever inserted. *)
Definition copy (ks : list string) (from to : string) (disk : Disk)
    : (Error + unit) * Disk :=
  let from_key := from in
  match disk !! from_key with
  | None =>
      (* result = Err(Simple("copy src didn't exist")); return; *)
      (inr tt, disk)
  | Some from_entry =>
      let key := to in
      let disk :=
        match from_entry with
        | Dir =>
            let to_save :=
              map (fun it => (it, String.append key (trim_start_matches it from_key)))
                  (filter (fun it => starts_with it from_key = true) ks) in
            foldl (fun d ft =>
                     match d !! ft.1 with
                     | Some entry => <[ft.2 := entry]> d
                     | None => d
                     end) disk to_save
        | _ => disk
        end in
      (inr tt, <[key := from_entry]> disk)
  end.

(** A legal enumeration order of [disk.keys()]. *)
Definition key_order (ks : list string) (disk : Disk) : Prop :=
  ks ≡ₚ map fst (map_to_list disk).


(** [fn get]: the content of a file that has one; any other entry is
    "not readable", a missing key "not found". *)
Definition get (path : string) (disk : Disk) : Error + string :=
  let key := path in
  match disk !! key with
  | Some (File (Some content)) => inr content
  | Some _ => inl (Simple "file was not readable")
  | None => inl (Simple "file not found")
  end.

(** [fn put]: insert (or replace) a file with this content. *)
Definition put (path content : string) (disk : Disk) : (Error + unit) * Disk :=
  let key := path in
  (inr tt, <[key := File (Some content)]> disk).

(** [fn symlink(_, to)]: the target is not recorded. *)
Definition symlink (from to : string) (disk : Disk) : (Error + unit) * Disk :=
  let key := to in
  (inr tt, <[key := Symlink]> disk).

(** [fn is_dir], [fn is_file], [fn is_symlink]. *)
Definition is_dir (path : string) (disk : Disk) : bool :=
  match disk !! path with Some Dir => true | _ => false end.

Definition is_file (path : string) (disk : Disk) : bool :=
  match disk !! path with Some (File _) => true | _ => false end.

Definition is_symlink (path : string) (disk : Disk) : bool :=
  match disk !! path with Some Symlink => true | _ => false end.

End Memory.

(* ================================================================== *)
(** ** The operating-system filesystem that [link] drives through [std::fs]

    [link] in [main.rs] calls [std::fs] directly. The filesystem is a map
    from the display string of a path to a node; a path is kept as its
    list of components ([PathBuf] parsed once). Paths reaching [link] are
    canonical ([cmd_add] canonicalizes its inputs), so only the final
    component of a path is resolved through symlinks; every proper
    ancestor must be a directory node. *)
Module Os.
Import RustStr RustPath.

Inductive Node :=
| NFile (content : string)
| NDir
| NLink (target : string).

Abbreviation Fs := (gmap string Node).
Abbreviation Path := (list Component).

(** [std::io::ErrorKind], the cases that arise here. *)
Inductive ErrorKind :=
| NotFound
| AlreadyExists
| NotADirectory
| IsADirectory
| Uncategorized.

Definition key (p : Path) : string := build p.

(** The non-empty prefixes of a component list. *)
Fixpoint inits {A} (l : list A) : list (list A) :=
  match l with
  | [] => []
  | x :: xs => [x] :: map (cons x) (inits xs)
  end.

(** The proper ancestors of a path, outermost first. *)
Definition ancestors (p : Path) : list Path := removelast (inits p).

(** Path lookup through the ancestors: a missing one is [ENOENT], one
    that is not a directory is [ENOTDIR]. *)
Fixpoint walk (fs : Fs) (qs : list Path) : ErrorKind + unit :=
  match qs with
  | [] => inr tt
  | q :: qs' =>
      match fs !! key q with
      | Some NDir => walk fs qs'
      | None => inl NotFound
      | Some _ => inl NotADirectory
      end
  end.

(** [fs::symlink_metadata] (lstat); the empty path does not exist. *)
Definition symlink_metadata (fs : Fs) (p : Path) : option Node :=
  match p with
  | [] => None
  | _ => match walk fs (ancestors p) with
         | inr _ => fs !! key p
         | inl _ => None
         end
  end.

(** [fs::metadata] (stat): follows symlinks, at most 40 of them. *)
Fixpoint metadata_go (fuel : nat) (fs : Fs) (p : Path) : option Node :=
  match fuel with
  | O => None
  | S fuel' =>
      match symlink_metadata fs p with
      | Some (NLink t) => metadata_go fuel' fs (components t)
      | r => r
      end
  end.

Definition metadata (fs : Fs) (p : Path) : option Node := metadata_go 41 fs p.

(** [Path::exists], [Path::is_file], [Path::is_dir]. *)
Definition exists_ (fs : Fs) (p : Path) : bool :=
  match metadata fs p with Some _ => true | None => false end.

Definition is_file (fs : Fs) (p : Path) : bool :=
  match metadata fs p with Some (NFile _) => true | _ => false end.

Definition is_dir (fs : Fs) (p : Path) : bool :=
  match metadata fs p with Some NDir => true | _ => false end.

(** [Path::parent]: drop the last component unless it is the root. *)
Definition parent (p : Path) : option Path :=
  match last p with
  | None => None
  | Some RootDir => None
  | Some _ => Some (removelast p)
  end.

(** mkdir(2), as [fs::create_dir]. *)
Definition mkdir (fs : Fs) (p : Path) : (ErrorKind + unit) * Fs :=
  match p with
  | [] => (inl NotFound, fs)
  | _ =>
      match walk fs (ancestors p) with
      | inl e => (inl e, fs)
      | inr _ =>
          match fs !! key p with
          | Some _ => (inl AlreadyExists, fs)
          | None => (inr tt, <[key p := NDir]> fs)
          end
      end
  end.

Definition is_not_found (e : ErrorKind) : bool :=
  match e with NotFound => true | _ => false end.

(** [fs::create_dir_all] as the standard library writes it: try
    [mkdir]; on [NotFound] create the parent and retry; any other error
    is fine when the path is a directory by now. Recursion is on the
    parent, which has one component fewer. *)
Fixpoint create_dir_all_go (fuel : nat) (fs : Fs) (p : Path)
    : (ErrorKind + unit) * Fs :=
  match fuel with
  | O => (inl Uncategorized, fs)
  | S fuel' =>
      match p with
      | [] => (inr tt, fs)
      | _ =>
          match mkdir fs p with
          | (inr _, fs1) => (inr tt, fs1)
          | (inl e, _) =>
              if is_not_found e then
                match parent p with
                | None => (inl Uncategorized, fs)
                | Some par =>
                    match create_dir_all_go fuel' fs par with
                    | (inl e', fs1) => (inl e', fs1)
                    | (inr _, fs1) =>
                        match mkdir fs1 p with
                        | (inr _, fs2) => (inr tt, fs2)
                        | (inl e2, _) =>
                            if is_dir fs1 p then (inr tt, fs1) else (inl e2, fs1)
                        end
                    end
                end
              else if is_dir fs p then (inr tt, fs) else (inl e, fs)
          end
      end
  end.

Definition create_dir_all (fs : Fs) (p : Path) : (ErrorKind + unit) * Fs :=
  create_dir_all_go (S (length p)) fs p.

(** unlink(2), as [fs::remove_file]. *)
Definition remove_file (fs : Fs) (p : Path) : (ErrorKind + unit) * Fs :=
  match p with
  | [] => (inl NotFound, fs)
  | _ =>
      match walk fs (ancestors p) with
      | inl e => (inl e, fs)
      | inr _ =>
          match fs !! key p with
          | None => (inl NotFound, fs)
          | Some NDir => (inl IsADirectory, fs)
          | Some _ => (inr tt, delete (key p) fs)
          end
      end
  end.

(** The keys of a directory and everything below it. *)
Definition in_subtree (dir k : string) : bool :=
  String.eqb k dir
  || starts_with k (if ends_with_slash dir then dir else String.append dir "/").

(** [fs::remove_dir_all]: a symlink is unlinked, a directory is removed
    with its whole subtree, anything else is [ENOTDIR]. *)
Definition remove_dir_all (fs : Fs) (p : Path) : (ErrorKind + unit) * Fs :=
  match symlink_metadata fs p with
  | None =>
      match walk fs (ancestors p) with
      | inl e => (inl e, fs)
      | inr _ => (inl NotFound, fs)
      end
  | Some (NLink _) => remove_file fs p
  | Some NDir => (inr tt, filter (fun kv => in_subtree (key p) kv.1 = false) fs)
  | Some (NFile _) => (inl NotADirectory, fs)
  end.

(** symlink(2), as [std::os::unix::fs::symlink(original, link)]. *)
Definition symlink (fs : Fs) (original : string) (link : Path)
    : (ErrorKind + unit) * Fs :=
  match link with
  | [] => (inl NotFound, fs)
  | _ =>
      match walk fs (ancestors link) with
      | inl e => (inl e, fs)
      | inr _ =>
          match fs !! key link with
          | Some _ => (inl AlreadyExists, fs)
          | None => (inr tt, <[key link := NLink original]> fs)
          end
      end
  end.

End Os.

(* ================================================================== *)
(** ** [src/disk.rs]: [OsFilesystem], the [Filesystem] over [std::fs] *)
Module OsDisk.
Import RustPath Os.

(** [fn remove]: [buf.is_dir()] follows symlinks; a directory (or a
    link to one) goes to [fs::remove_dir_all], anything else to
    [fs::remove_file]. *)
Definition remove (fs : Fs) (path : string) : (ErrorKind + unit) * Fs :=
  let buf := components path in
  if is_dir fs buf then remove_dir_all fs buf else remove_file fs buf.

End OsDisk.

(* ================================================================== *)
(** ** [src/main.rs]: bundles, the lock, the link engine *)
Module Dotgirl.
Import RustStr RustPath Os.

(** [struct Entry], [struct Bundle], [struct Lock]. *)
Record Entry := { local : string; remote : string }.
Record Bundle := { id : string; entries : list Entry }.
Record Lock := { bundles : list Bundle }.

(** [enum Error]; [std::io::Error] keeps its kind, [.expect(..)] on a
    prompt is a [Panic]. *)
Inductive Error :=
| IoError (kind : ErrorKind)
| HomedirNotFound
| ParseError
| SerializeError
| LastComponentInvalid (path : string)
| BundleNotFound
| BundleMissingMeta
| Panic (msg : string).

(** The items of the conflict [Select]: ["skip"], ["overwrite"],
    ["overwrite all"]; [interact] returns the index of the chosen one. *)
Inductive Choice := Skip | Overwrite | OverwriteAll.

Definition choice_index (c : Choice) : nat :=
  match c with Skip => 0 | Overwrite => 1 | OverwriteAll => 2 end.

(** What the user types, in order, and the prompts shown. *)
Inductive Answer :=
| AConfirm (yes : bool)
| ASelect (choice : Choice).

Inductive Prompt :=
| PConfirm (remote parent : string)
| PSelect (remote : string).

(** The storage area: [lock.toml] (when it is a file) and, per bundle
    directory, its [bundle.toml] if present. The TOML codec is an
    external collaborator; a file holds the value it decodes to. *)
Record World := {
  fs : Fs;
  answers : list Answer;
  prompts : list Prompt;
  lock_file : option Lock;
  bundle_dirs : gmap string (option Bundle)
}.

Definition set_fs (f : Fs) (w : World) : World :=
  {| fs := f; answers := answers w; prompts := prompts w;
     lock_file := lock_file w; bundle_dirs := bundle_dirs w |}.

Definition set_dialog (a : list Answer) (p : list Prompt) (w : World) : World :=
  {| fs := fs w; answers := a; prompts := p;
     lock_file := lock_file w; bundle_dirs := bundle_dirs w |}.

Definition set_store (l : option Lock) (b : gmap string (option Bundle))
    (w : World) : World :=
  {| fs := fs w; answers := answers w; prompts := prompts w;
     lock_file := l; bundle_dirs := b |}.

(** [Result<T>] over the world: a state and error monad. *)
Definition M (A : Type) : Type := World -> (Error + A) * World.

Definition ret {A} (a : A) : M A := fun w => (inr a, w).

Definition bind {A B} (m : M A) (k : A -> M B) : M B :=
  fun w => match m w with
           | (inl e, w') => (inl e, w')
           | (inr a, w') => k a w'
           end.

Notation "x <- m ;; k" := (bind m (fun x => k))
  (at level 100, m at next level, right associativity).

Definition throw {A} (e : Error) : M A := fun w => (inl e, w).

(** A [std::fs] call followed by [?]. *)
Definition io {A} (op : Fs -> (ErrorKind + A) * Fs) : M A :=
  fun w => match op (fs w) with
           | (inl k, f) => (inl (IoError k), set_fs f w)
           | (inr a, f) => (inr a, set_fs f w)
           end.

(** A query that never fails ([exists], [is_file], [is_dir]). *)
Definition probe {A} (q : Fs -> A) : M A := fun w => (inr (q (fs w)), w).

(** [Confirmation::new().with_text(..).interact().expect(..)]. *)
Definition confirm (remote parent : string) : M bool :=
  fun w =>
    let shown := (prompts w ++ [PConfirm remote parent])%list in
    match answers w with
    | AConfirm b :: rest => (inr b, set_dialog rest shown w)
    | _ => (inl (Panic "Failed to show prompt"), set_dialog (answers w) shown w)
    end.

(** [Select::with_theme(..).items(["skip", "overwrite", "overwrite all"])
    .interact().expect(..)]. *)
Definition select (remote : string) : M nat :=
  fun w =>
    let shown := (prompts w ++ [PSelect remote])%list in
    match answers w with
    | ASelect c :: rest => (inr (choice_index c), set_dialog rest shown w)
    | _ => (inl (Panic "Failed to show prompt"), set_dialog (answers w) shown w)
    end.

(** Lines 330-352: make the remote's parent a directory, asking first
    when it is a file. *)
Definition prepare_parent (it : Entry) (remote_path : Path) : M unit :=
  match parent remote_path with
  | Some par =>
      pf <- probe (fun f => is_file f par) ;;
      _ <- (if pf then
              yes <- confirm (remote it) (key par) ;;
              if yes then io (fun f => remove_file f par) else ret tt
            else ret tt) ;;
      pd <- probe (fun f => is_dir f par) ;;
      if negb pd then io (fun f => create_dir_all f par) else ret tt
  | None => ret tt
  end.

(** Lines 371-381: remove what is at the remote, then link it. *)
Definition overwrite_and_link (it : Entry) (remote_path : Path) : M unit :=
  pd <- probe (fun f => is_dir f remote_path) ;;
  _ <- (if pd then io (fun f => remove_dir_all f remote_path)
        else pf <- probe (fun f => is_file f remote_path) ;;
             if pf then io (fun f => remove_file f remote_path) else ret tt) ;;
  io (fun f => symlink f (local it) remote_path).

(** The body of the [for it in &bundle.entries] loop of [link]: returns
    the new [overwrite_all] and whether [it] was pushed to [result]
    ([false] is the [continue] of a skip). *)
Definition link_entry (overwrite : list string) (overwrite_all : bool)
    (it : Entry) : M (bool * bool) :=
  let remote_path := components (remote it) in
  _ <- prepare_parent it remote_path ;;
  ex <- probe (fun f => exists_ f remote_path) ;;
  if ex then
    if negb overwrite_all && negb (existsb (String.eqb (remote it)) overwrite) then
      selection <- select (remote it) ;;
      match selection with
      | 0 => ret (overwrite_all, false)
      | 2 => _ <- overwrite_and_link it remote_path ;; ret (true, true)
      | _ => _ <- overwrite_and_link it remote_path ;; ret (overwrite_all, true)
      end
    else _ <- overwrite_and_link it remote_path ;; ret (overwrite_all, true)
  else _ <- io (fun f => symlink f (local it) remote_path) ;; ret (overwrite_all, true).

Fixpoint link_loop (overwrite : list string) (es : list Entry)
    (overwrite_all : bool) (result : list Entry) : M (list Entry) :=
  match es with
  | [] => ret result
  | it :: rest =>
      r <- link_entry overwrite overwrite_all it ;;
      link_loop overwrite rest r.1 (if r.2 then (result ++ [it])%list else result)
  end.

(** [fn link(bundle, overwrite, overwrite_all)]. *)
Definition link (bundle : Bundle) (overwrite : list string)
    (overwrite_all : bool) : M (list Entry) :=
  link_loop overwrite (entries bundle) overwrite_all [].

(** [get_lockfile]: the default (empty) lock when there is no file. *)
Definition get_lockfile : M Lock :=
  fun w => (inr (default {| bundles := [] |} (lock_file w)), w).

(** [write_lockfile]: overwrite the lock file in full. *)
Definition write_lockfile (lockfile : Lock) : M unit :=
  fun w => (inr tt, set_store (Some lockfile) (bundle_dirs w) w).

(** [cmd_link] lines 282-290: the remotes of the first lock record with
    this id. *)
Definition previous_entries (lockfile : Lock) (bundle_name : string)
    : list string :=
  match find (fun it => String.eqb (id it) bundle_name) (bundles lockfile) with
  | Some previous => map remote (entries previous)
  | None => []
  end.

(** [cmd_link] lines 306-307: [retain] the other ids, push the new
    record [Bundle { entries: linked, ..bundle }]. *)
Definition relink_lock (lockfile : Lock) (bundle_name : string)
    (bundle : Bundle) (linked : list Entry) : Lock :=
  {| bundles :=
       (filter (fun it => String.eqb (id it) bundle_name = false) (bundles lockfile)
       ++ [{| id := id bundle; entries := linked |}])%list |}.

(** [cmd_link]. *)
Definition cmd_link (bundle_name : string) : M unit :=
  lockfile <- get_lockfile ;;
  let previous := previous_entries lockfile bundle_name in
  dir <- (fun w => (inr (bundle_dirs w !! bundle_name), w)) ;;
  match dir with
  | None => throw BundleNotFound
  | Some None => throw BundleMissingMeta
  | Some (Some bundle) =>
      linked <- link bundle previous false ;;
      write_lockfile (relink_lock lockfile bundle_name bundle linked)
  end.

(** [cmd_add] line 273: push the new record [Bundle { entries: linked,
    ..bundle }]. *)
Definition add_lock (lockfile : Lock) (bundle : Bundle) (linked : list Entry)
    : Lock :=
  {| bundles := (bundles lockfile ++ [{| id := id bundle; entries := linked |}])%list |}.

(** [cmd_add] from line 257 on: [es] are the entries the copy loop
    (lines 191-255) produced; the lock read at line 189 is unchanged by
    that loop. Write [bundle.toml], link with [overwrite_all = true],
    then update and write the lock. *)
Definition cmd_add_finish (bundle_name : string) (es : list Entry) : M unit :=
  lockfile <- get_lockfile ;;
  let bundle := {| id := bundle_name; entries := es |} in
  _ <- (fun w => (inr tt, set_store (lock_file w)
                            (<[bundle_name := Some bundle]> (bundle_dirs w)) w)) ;;
  linked <- link bundle [] true ;;
  write_lockfile (add_lock lockfile bundle linked).

End Dotgirl.

(* ================================================================== *)
(** ** [src/main.rs]: [cmd_add] up to the bundle record *)
Module Add.
Import RustStr RustPath Os Dotgirl.
Local Open Scope list_scope.

Section Add.

(** [fs_extra::dir::copy(remote, local, {copy_inside, overwrite})] (a
    crate outside this repository) and [fs::copy(remote, local)]: what
    follows holds whatever they do to the filesystem and whether they
    fail. *)
Variable dir_copy : Fs -> Path -> Path -> (ErrorKind + unit) * Fs.
Variable file_copy : Fs -> Path -> Path -> (ErrorKind + unit) * Fs.

(** Lines 191-204: [symlink_metadata(..).expect(..)] panics on a path
    where nothing is; a symlink is skipped (after a message). *)
Fixpoint skip_symlinks (paths : list string) : M (list string) :=
  match paths with
  | [] => ret []
  | it :: rest =>
      meta <- probe (fun f => symlink_metadata f (components it)) ;;
      match meta with
      | None => throw (Panic "Failed to get metadata")
      | Some (NLink _) => skip_symlinks rest
      | Some _ => kept <- skip_symlinks rest ;; ret (it :: kept)
      end
  end.

(** Lines 219-246, the closure for one remote: its storage-local name,
    the copy into the bundle directory (a directory, a file, or nothing
    when it is neither), and the entry. Its [Err] does not stop the
    command, so it is returned as a value. An [fs_extra] error
    ([IoExtraError]) is carried as an [IoError]; the value is dropped
    unread at line 254. *)
Definition add_entry (bundle_path remote_s : string) : World -> (Error + Entry) * World :=
  match Name.get_name remote_s with
  | inl (Name.LastComponentInvalid s) => fun w => (inl (LastComponentInvalid s), w)
  | inr remote_name =>
      let local_s := push bundle_path remote_name in
      let remote_p := components remote_s in
      let local_p := components local_s in
      _ <- (isd <- probe (fun f => is_dir f remote_p) ;;
            if isd then io (fun f => dir_copy f remote_p local_p)
            else isf <- probe (fun f => is_file f remote_p) ;;
                 if isf then io (fun f => file_copy f remote_p local_p)
                 else ret tt) ;;
      ret {| local := local_s; remote := remote_s |}
  end.

(** Lines 217-255: the closure for each remote in turn; a failed one
    is reported and left out ([filter_map(Result::ok)]). *)
Fixpoint add_entries (bundle_path : string) (remotes : list string) : M (list Entry) :=
  match remotes with
  | [] => ret []
  | r :: rs =>
      fun w =>
        match add_entry bundle_path r w with
        | (inl _, w1) => add_entries bundle_path rs w1
        | (inr e, w1) => (rest <- add_entries bundle_path rs ;; ret (e :: rest)) w1
        end
  end.

(** [fn cmd_add(env, bundle_name, paths)]; [storage] is [env.storage].
    The lock read at line 189 is read again by [cmd_add_finish]: nothing
    in between writes it. *)
Definition cmd_add (storage bundle_name : string) (paths : list string) : M unit :=
  _ <- get_lockfile ;;
  paths <- skip_symlinks paths ;;
  let bundle_path := push (push storage "bundle") bundle_name in
  isd <- probe (fun f => is_dir f (components bundle_path)) ;;
  _ <- (if isd then ret tt else io (fun f => create_dir_all f (components bundle_path))) ;;
  entries <- add_entries bundle_path paths ;;
  cmd_add_finish bundle_name entries.

End Add.

End Add.

(* ================================================================== *)
(** * Fixtures and auxiliary predicates *)
(* ================================================================== *)

(** Predicates used in the statements about the in-memory disk. *)
Module MemoryPreds.
Import RustStr RustPath Memory.

Definition conflicting (e : option Entry) : Prop :=
  match e with Some (File _) | Some Symlink => True | _ => False end.

(** The components [Path::components] yields: the root, or a non-empty
    name with no separator. *)
Definition sep_free (c : Component) : Prop :=
  c = RootDir \/
  (as_os_str c <> "" /\ ends_with_slash (as_os_str c) = false /\
   starts_with (as_os_str c) "/" = false).

End MemoryPreds.

(** Concrete in-memory disks. *)
Module MemoryFixtures.
Import RustStr RustPath Memory.

(** The tree of the spec's delete example, with the sibling [/srcOther]. *)
Definition src_tree : Disk :=
  <["/srcOther" := File (Some "o")]>
  (<["/src/y/z" := File (Some "z")]>
  (<["/src/y" := Dir]>
  (<["/src/x" := File (Some "x")]>
  (<["/src" := Dir]> ∅)))).

(** A directory [/s] holding a file also named [s]. *)
Definition s_tree : Disk := <["/s/s" := File (Some "c")]> (<["/s" := Dir]> ∅).


End MemoryFixtures.

(** Two readings of "remove the leading dot", for comparison with [get_name]. *)
Module NameSpecs.
Import RustStr.


(** A name with every leading dot removed. *)
Fixpoint strip_leading_dots (s : string) : string :=
  match s with
  | String c s' => if Ascii.eqb c "." then strip_leading_dots s' else s
  | EmptyString => s
  end.

End NameSpecs.

(** A home, a storage copy and a lock with one record. *)
Module LockFixtures.
Import RustPath Os Dotgirl.

(** A home with [.bashrc], and its storage copy. *)
Definition home_fs : Fs :=
  <["/st/bundle/shell/bashrc" := NFile "X"]>
  (<["/st/bundle/shell" := NDir]> (<["/st/bundle" := NDir]> (<["/st" := NDir]>
  (<["/h/.bashrc" := NLink "/st/bundle/shell/bashrc"]>
  (<["/h" := NDir]> (<["/" := NDir]> ∅)))))).

Definition bashrc : Entry := {| local := "/st/bundle/shell/bashrc"; remote := "/h/.bashrc" |}.

Definition shell_lock : Lock :=
  {| bundles := [{| id := "shell"; entries := [bashrc] |}] |}.

Definition count_id (l : Lock) (name : string) : nat :=
  length (filter (fun b => id b = name) (bundles l)).

(** The world after an earlier [add shell ~/.bashrc]. *)
Definition added_world : World :=
  {| fs := home_fs; answers := []; prompts := [];
     lock_file := Some shell_lock;
     bundle_dirs := <["shell" := Some {| id := "shell"; entries := [bashrc] |}]> ∅ |}.

End LockFixtures.

(** Predicates on the prompts a computation shows. *)
Module LinkPreds.
Import RustPath Os Dotgirl.
Local Open Scope list_scope.

(** A computation that neither reads an answer nor shows a prompt. *)
Definition quiet {A} (m : M A) : Prop :=
  forall w, answers (m w).2 = answers w /\ prompts (m w).2 = prompts w.

(** Prompts that are all confirmations. *)
Definition no_select (ps : list Prompt) : Prop :=
  Forall (fun p => match p with PSelect _ => False | PConfirm _ _ => True end) ps.

(** A computation that shows no [Select] and whose results satisfy
    [P]. *)
Definition select_free {A} (P : A -> Prop) (m : M A) : Prop :=
  forall w,
    (exists ps, prompts (m w).2 = prompts w ++ ps /\ no_select ps) /\
    (forall a w', m w = (inr a, w') -> P a).

End LinkPreds.

(** Concrete homes and worlds for the link engine. *)
Module LinkFixtures.
Import RustPath Os Dotgirl LockFixtures.
Local Open Scope list_scope.

(** A home where [/h/d] is a file, and an entry to be linked at
    [/h/d/f]. *)
Definition d_is_file : Fs :=
  <["/st/f" := NFile "F"]> (<["/st" := NDir]>
  (<["/h/d" := NFile "D"]> (<["/h" := NDir]> (<["/" := NDir]> ∅)))).

Definition f_entry : Entry := {| local := "/st/f"; remote := "/h/d/f" |}.
Definition g_entry : Entry := {| local := "/st/g"; remote := "/h/g" |}.

Definition declining_world : World :=
  {| fs := d_is_file; answers := [AConfirm false]; prompts := [];
     lock_file := None; bundle_dirs := ∅ |}.

(** The lock and home of [LockFixtures], reused: [~/.bashrc] is linked. *)
Definition relink_world : World := added_world.

(** The previous lock record links [/h/d/f]; since then [/h/d] has
    become a file. *)
Definition parent_became_file : World :=
  {| fs := d_is_file; answers := [AConfirm true]; prompts := [];
     lock_file := Some {| bundles := [{| id := "shell"; entries := [f_entry] |}] |};
     bundle_dirs := <["shell" := Some {| id := "shell"; entries := [f_entry] |}]> ∅ |}.

(** [~/.x] exists as a file; its storage copy is [/st/x]. *)
Definition x_home : Fs :=
  <["/st/x" := NFile "X"]> (<["/st" := NDir]>
  (<["/h/.x" := NFile "old"]> (<["/h" := NDir]> (<["/" := NDir]> ∅)))).

Definition x_entry : Entry := {| local := "/st/x"; remote := "/h/.x" |}.

Definition skipping_world : World :=
  {| fs := x_home; answers := [ASelect Skip]; prompts := [];
     lock_file := None;
     bundle_dirs := <["dots" := Some {| id := "dots"; entries := [x_entry] |}]> ∅ |}.

(** The same entry twice in one bundle ([add dots ~/.x ~/.x] records it
    twice). *)
Definition twice_world : World :=
  {| fs := x_home; answers := [ASelect Skip; ASelect Overwrite]; prompts := [];
     lock_file := None;
     bundle_dirs := <["dots" := Some {| id := "dots"; entries := [x_entry; x_entry] |}]> ∅ |}.

End LinkFixtures.

(** Homes with a dangling link and with a free remote. *)
Module EdgeFixtures.
Import RustPath Os Dotgirl.
Local Open Scope list_scope.

(** [~/.x] is a link into a storage location that is gone. *)
Definition dangling_home : Fs :=
  <["/h/.x" := NLink "/gone/x"]> (<["/h" := NDir]> (<["/" := NDir]> ∅)).

Definition dangling_world : World :=
  {| fs := dangling_home; answers := []; prompts := [];
     lock_file := None; bundle_dirs := ∅ |}.

(** Nothing is at [~/.x] yet; its storage copy is [/st/x]. *)
Definition free_home : Fs :=
  <["/st/x" := NFile "X"]> (<["/st" := NDir]>
  (<["/h" := NDir]> (<["/" := NDir]> ∅))).

Definition free_world : World :=
  {| fs := free_home; answers := []; prompts := [];
     lock_file := None; bundle_dirs := ∅ |}.

(** [~/.cfg] is a directory with a file in it, next to a file
    [~/.cfgx]; the storage copy is [/st/cfg]. *)
Definition dir_home : Fs :=
  <["/h/.cfgx" := NFile "other"]> (<["/h/.cfg/a" := NFile "A"]>
  (<["/h/.cfg" := NDir]> (<["/h" := NDir]> (<["/" := NDir]> ∅)))).

Definition dir_world : World :=
  {| fs := dir_home; answers := []; prompts := [];
     lock_file := None; bundle_dirs := ∅ |}.

Definition cfg_entry : Entry := {| local := "/st/cfg"; remote := "/h/.cfg" |}.

End EdgeFixtures.

(* ================================================================== *)
(** * Properties *)

(* ------------------------------------------------------------------ *)
(** ** Rust string facts *)
Module StrFacts.
Import RustStr.


Lemma starts_with_refl (s : string) : starts_with s s = true.
Proof. induction s; simpl; [done|]. by rewrite Ascii.eqb_refl. Qed.

End StrFacts.

(* ------------------------------------------------------------------ *)
(** ** The in-memory filesystem *)
Module MemoryFacts.
Import RustStr RustPath Memory StrFacts MemoryPreds.




(** The loop of [mkdir_all]: every visited key becomes [Dir], every other
    key keeps its entry. *)
Lemma mkdir_all_go_lookup (parts : list Component) (buf : string)
    (r : Error + unit) (d : Disk) :
  (forall k, k ∈ prefix_keys parts buf -> (mkdir_all_go parts buf r d).2 !! k = Some Dir) /\
  (forall k, k ∉ prefix_keys parts buf -> (mkdir_all_go parts buf r d).2 !! k = d !! k).
Proof.
  revert buf r d. induction parts as [|part parts IH]; intros buf r d; simpl.
  - split; [intros k Hk; set_solver|done].
  - set (buf' := push buf (as_os_str part)).
    set (r' := match d !! buf' with
               | Some (File _) => inl (Simple "file existed")
               | Some Symlink => inl (Simple "symlink existed")
               | _ => r end).
    destruct (IH buf' r' (<[buf' := Dir]> d)) as [IH1 IH2].
    split.
    + intros k Hk. destruct (decide (k ∈ prefix_keys parts buf')) as [Hin|Hout].
      * by apply IH1.
      * rewrite IH2 by done. assert (k = buf') as -> by set_solver.
        by rewrite lookup_insert_eq.
    + intros k Hk. rewrite IH2 by set_solver.
      rewrite lookup_insert_ne; [done|set_solver].
Qed.

(** Over directories only, the loop keeps the result it started with. *)
Lemma mkdir_all_go_dirs (parts : list Component) (buf : string)
    (r : Error + unit) (d : Disk) :
  (forall k, k ∈ prefix_keys parts buf -> d !! k = Some Dir) ->
  (mkdir_all_go parts buf r d).1 = r.
Proof.
  revert buf r d. induction parts as [|part parts IH]; intros buf r d Hd; simpl; [done|].
  rewrite (Hd (push buf (as_os_str part))) by set_solver.
  apply IH. intros k Hk.
  destruct (decide (k = push buf (as_os_str part))) as [->|Hne].
  - by rewrite lookup_insert_eq.
  - rewrite lookup_insert_ne by done. apply Hd. set_solver.
Qed.


(** A changed result comes from a visited key that held a file or a
    symlink before the call. *)
Lemma mkdir_all_go_conflict (parts : list Component) (buf : string)
    (r : Error + unit) (d : Disk) :
  (mkdir_all_go parts buf r d).1 <> r ->
  exists k, k ∈ prefix_keys parts buf /\ conflicting (d !! k).
Proof.
  revert buf r d. induction parts as [|part parts IH]; intros buf r d H; simpl in *.
  - done.
  - set (buf' := push buf (as_os_str part)) in *.
    destruct (d !! buf') as [[c| |]|] eqn:Eb.
    + exists buf'. rewrite Eb. split; [set_solver|done].
    + destruct (IH _ _ _ H) as (k & Hk & Hc).
      destruct (decide (k = buf')) as [->|Hne].
      * rewrite lookup_insert_eq in Hc. done.
      * rewrite lookup_insert_ne in Hc by done. exists k. split; [set_solver|done].
    + exists buf'. rewrite Eb. split; [set_solver|done].
    + destruct (IH _ _ _ H) as (k & Hk & Hc).
      destruct (decide (k = buf')) as [->|Hne].
      * rewrite lookup_insert_eq in Hc. done.
      * rewrite lookup_insert_ne in Hc by done. exists k. split; [set_solver|done].
Qed.

End MemoryFacts.

(** ** Claims on the in-memory filesystem *)
Module MemoryClaims.
Import RustStr RustPath Memory StrFacts MemoryFacts MemoryPreds MemoryFixtures.


(** C2 (code_bug): [remove "/src"] does delete [/src] and its subtree,
    but it deletes the unrelated sibling [/srcOther] as well: the keys
    are matched with a raw [starts_with], not by path segment. *)
Lemma remove_deletes_prefix_sibling :
  src_tree !! "/srcOther" = Some (File (Some "o")) /\
  (remove "/src" src_tree).2 !! "/srcOther" = None /\
  (remove "/src" src_tree).2 !! "/src" = None /\
  (remove "/src" src_tree).2 !! "/src/x" = None /\
  (remove "/src" src_tree).2 !! "/src/y" = None /\
  (remove "/src" src_tree).2 !! "/src/y/z" = None.
Proof. vm_compute. repeat split. Qed.

(** C3 (code_bug): when nothing exists at [from], [copy] returns
    [Ok(())] (and leaves the disk as it is) instead of the error it
    computes, for every enumeration order of the keys. *)
Lemma copy_missing_source_returns_ok (ks : list string) (from to : string)
    (d : Disk) (Hmissing : d !! from = None) :
  copy ks from to d = (inr tt, d).
Proof. unfold copy. by rewrite Hmissing. Qed.

Lemma copy_missing_source_returns_ok_witness :
  (∅ : Disk) !! "/a" = None /\ copy [] "/a" "/b" ∅ = (inr tt, ∅).
Proof.
  split; [reflexivity|].
  apply (copy_missing_source_returns_ok [] "/a" "/b" ∅). reflexivity.
Defined.


(** C4 (code_bug): copying [/s] to [/dst] never creates [/dst/s],
    whatever order the map enumerates its keys in: the suffix of [/s/s]
    is computed with [trim_start_matches], which strips ["/s"] twice and
    maps [/s/s] onto [/dst] itself. *)
Lemma copy_loses_repeated_prefix (ks : list string) (Hks : key_order ks s_tree) :
  s_tree !! "/s/s" = Some (File (Some "c")) /\
  (copy ks "/s" "/dst" s_tree).2 !! "/dst/s" = None.
Proof.
  split; [reflexivity|].
  unfold key_order in Hks. vm_compute in Hks.
  symmetry in Hks.
  apply Permutation_length_2_inv in Hks as [-> | ->]; vm_compute; reflexivity.
Qed.

Lemma copy_loses_repeated_prefix_witness :
  key_order (map fst (map_to_list s_tree)) s_tree /\
  (copy (map fst (map_to_list s_tree)) "/s" "/dst" s_tree).2 !! "/dst/s" = None.
Proof.
  split; [unfold key_order; reflexivity|].
  apply (copy_loses_repeated_prefix (map fst (map_to_list s_tree))).
  unfold key_order. reflexivity.
Defined.

(** The spec's copy example itself goes through: [/src] with [/src/x]
    and [/src/y/z] copied to [/dst]. *)
Example copy_spec_example :
  let d := (copy (map fst (map_to_list src_tree)) "/src" "/dst" src_tree).2 in
  d !! "/dst" = Some Dir /\ d !! "/dst/x" = Some (File (Some "x")) /\
  d !! "/dst/y" = Some Dir /\ d !! "/dst/y/z" = Some (File (Some "z")).
Proof. vm_compute. repeat split. Qed.




(** C10: after [mkdir_all path], whatever it returns, every key it
    visits (each path prefix of [path]) holds [Dir] and no other key
    changed; when it returns an error, some visited key held a file or
    a symlink before and now holds [Dir], so the state changed; and a
    second call on the result succeeds. *)
Theorem mkdir_all_overwrites_and_repeat_succeeds (path : string) (d : Disk) :
  let keys := prefix_keys (components path) "" in
  (forall k, k ∈ keys -> (mkdir_all path d).2 !! k = Some Dir) /\
  (forall k, k ∉ keys -> (mkdir_all path d).2 !! k = d !! k) /\
  ((mkdir_all path d).1 <> inr tt ->
     exists k, k ∈ keys /\ conflicting (d !! k) /\
               (mkdir_all path d).2 !! k = Some Dir /\
               (mkdir_all path d).2 <> d) /\
  (mkdir_all path (mkdir_all path d).2).1 = inr tt.
Proof.
  intros keys. unfold mkdir_all.
  destruct (mkdir_all_go_lookup (components path) "" (inr tt) d) as [H1 H2].
  split; [done|]. split; [done|]. split.
  - intros Herr. destruct (mkdir_all_go_conflict _ _ _ _ Herr) as (k & Hk & Hc).
    exists k. split; [done|]. split; [done|]. split; [by apply H1|].
    intros Heq. rewrite Heq in H1. specialize (H1 k Hk). rewrite H1 in Hc. done.
  - apply mkdir_all_go_dirs. done.
Qed.

End MemoryClaims.

(* ------------------------------------------------------------------ *)
(** ** Storage-local names *)
Module NameClaims.
Import RustStr RustPath Name NameSpecs.

(** The tests of [get_name] in [main.rs] and [util.rs]. *)
Example get_name_dir : get_name "/foo/bar/baz/" = inr "baz".
Proof. reflexivity. Qed.
Example get_name_file : get_name "/foo/bar/baz.conf" = inr "baz.conf".
Proof. reflexivity. Qed.
Example get_name_dot : get_name "/foo/bar/.baz.conf" = inr "baz.conf".
Proof. reflexivity. Qed.


Lemma trim_dot_go (s : string) (fuel : nat) :
  String.length s < fuel ->
  trim_start_matches_go fuel s "." = strip_leading_dots s.
Proof.
  revert fuel. induction s as [|c s IH]; intros [|fuel] Hf;
    cbn -[Ascii.eqb] in *; try lia.
  - done.
  - rewrite (Ascii.eqb_sym "." c).
    destruct (Ascii.eqb c ".") eqn:E; cbn -[Ascii.eqb]; [|done].
    replace (starts_with s "") with true by (destruct s; reflexivity).
    apply IH. lia.
Qed.

Lemma trim_dot (s : string) : trim_start_matches s "." = strip_leading_dots s.
Proof. apply trim_dot_go. simpl. lia. Qed.





End NameClaims.

(* ------------------------------------------------------------------ *)
(** ** The lock's records *)
Module LockClaims.
Import RustPath Os Dotgirl LockFixtures.


(** C1 (code_bug): adding to [shell] again pushes a second [shell]
    record: [cmd_add] does not [retain] the other ids before its push,
    as [cmd_link] does; a [cmd_link] afterwards collapses them to one. *)
Lemma add_again_duplicates_lock_record :
  count_id shell_lock "shell" = 1 /\
  (cmd_add_finish "shell" [bashrc] added_world).1 = inr tt /\
  option_map (fun l => count_id l "shell")
    (lock_file (cmd_add_finish "shell" [bashrc] added_world).2) = Some 2 /\
  option_map (fun l => count_id l "shell")
    (lock_file (cmd_link "shell" (cmd_add_finish "shell" [bashrc] added_world).2).2)
    = Some 1.
Proof. vm_compute. repeat split. Qed.

End LockClaims.

(* ------------------------------------------------------------------ *)
(** ** The operating-system filesystem *)
Module OsFacts.
Import RustStr RustPath Os.
Local Open Scope list_scope.

Lemma inits_snoc {A} (l : list A) (x : A) :
  inits (l ++ [x]) = inits l ++ [l ++ [x]].
Proof.
  induction l as [|y l IH]; simpl; [done|].
  rewrite IH, map_app. done.
Qed.

Lemma walk_app (f : Fs) (l1 l2 : list Path) :
  walk f (l1 ++ l2) = match walk f l1 with inr _ => walk f l2 | inl e => inl e end.
Proof.
  induction l1 as [|q l1 IH]; simpl; [done|].
  destruct (f !! key q) as [[]|]; done.
Qed.

(** The ancestors of a path are the prefixes of its parent. *)
Lemma ancestors_of_parent (p par : Path) :
  parent p = Some par -> ancestors p = inits par /\ p = par ++ [List.last p RootDir].
Proof.
  unfold parent, ancestors. destruct (last p) as [c|] eqn:Hl; [|done].
  intros Hp. assert (removelast p = par) as Hpar by (destruct c; congruence).
  apply last_Some in Hl as [l' ->]. rewrite removelast_last in Hpar. subst l'.
  rewrite inits_snoc, removelast_last, List.last_last. done.
Qed.

Lemma symlink_metadata_Some (f : Fs) (p : Path) (n : Node) :
  symlink_metadata f p = Some n ->
  p <> [] /\ walk f (ancestors p) = inr tt /\ f !! key p = Some n.
Proof.
  unfold symlink_metadata. destruct p as [|c p]; [done|].
  destruct (walk f (ancestors (c :: p))) as [e|[]]; [done|]. done.
Qed.

Lemma metadata_Some (f : Fs) (p : Path) (n : Node) :
  metadata f p = Some n ->
  exists n', symlink_metadata f p = Some n'.
Proof.
  unfold metadata. simpl. destruct (symlink_metadata f p) as [n'|]; [by eexists|done].
Qed.

(** A parent that exists is a directory when the path under it exists. *)
Lemma parent_of_existing (f : Fs) (p par : Path) :
  exists_ f p = true -> parent p = Some par ->
  (par = [] /\ is_file f par = false /\ is_dir f par = false) \/
  (is_file f par = false /\ is_dir f par = true).
Proof.
  intros Hex Hp. unfold exists_ in Hex.
  destruct (metadata f p) as [n|] eqn:Hm; [|done].
  destruct (metadata_Some _ _ _ Hm) as [n' Hs].
  apply symlink_metadata_Some in Hs as (_ & Hw & _).
  destruct (ancestors_of_parent _ _ Hp) as [Ha _]. rewrite Ha in Hw.
  destruct par as [|c par'] eqn:Epar; [left; done|right].
  rewrite <- Epar in *.
  assert (par = removelast par ++ [List.last par RootDir]) as Hsplit
    by (apply app_removelast_last; subst; done).
  rewrite Hsplit, inits_snoc, <- Hsplit, walk_app in Hw.
  destruct (walk f (inits (removelast par))) as [e|[]] eqn:Hw1; [done|].
  simpl in Hw. destruct (f !! key par) as [[]|] eqn:Hk; try done.
  assert (symlink_metadata f par = Some NDir) as Hs.
  { unfold symlink_metadata. rewrite Epar. rewrite <- Epar.
    unfold ancestors. rewrite Hsplit at 1. rewrite inits_snoc, removelast_last.
    rewrite Hw1. done. }
  unfold is_file, is_dir, metadata. simpl. rewrite Hs. done.
Qed.

(** [create_dir_all] on a path that is a file fails with [AlreadyExists]
    and changes nothing. *)
Lemma create_dir_all_on_file (f : Fs) (p : Path) :
  is_file f p = true -> create_dir_all f p = (inl AlreadyExists, f).
Proof.
  unfold is_file. destruct (metadata f p) as [n|] eqn:Hm; [|done].
  intros Hn. destruct n as [c| |t]; try done.
  destruct (metadata_Some _ _ _ Hm) as [n' Hs].
  apply symlink_metadata_Some in Hs as (Hne & Hw & Hk).
  unfold create_dir_all. destruct p as [|c0 p0]; [done|].
  cbn [create_dir_all_go]. unfold mkdir. rewrite Hw, Hk. simpl.
  unfold is_dir. rewrite Hm. done.
Qed.

Lemma is_file_not_dir (f : Fs) (p : Path) :
  is_file f p = true -> is_dir f p = false.
Proof. unfold is_file, is_dir. destruct (metadata f p) as [[]|]; done. Qed.

End OsFacts.

(* ------------------------------------------------------------------ *)
(** ** The link engine *)
Module LinkFacts.
Import RustStr RustPath Os Dotgirl OsFacts LinkPreds.
Local Open Scope list_scope.

Lemma set_fs_same (w : World) : set_fs (fs w) w = w.
Proof. by destruct w. Qed.


Lemma quiet_ret {A} (a : A) : quiet (ret a).
Proof. done. Qed.

Lemma quiet_probe {A} (q : Fs -> A) : quiet (probe q).
Proof. done. Qed.

Lemma quiet_io {A} (op : Fs -> (ErrorKind + A) * Fs) : quiet (io op).
Proof. intros w. unfold io. by destruct (op (fs w)) as [[]]. Qed.

Lemma quiet_bind {A B} (m : M A) (k : A -> M B) :
  quiet m -> (forall a, quiet (k a)) -> quiet (bind m k).
Proof.
  intros Hm Hk w. unfold bind. specialize (Hm w).
  destruct (m w) as [[e|a] w'] eqn:E; simpl in *; [done|].
  destruct (Hk a w') as [H1 H2]. rewrite H1, H2. done.
Qed.

Create HintDb quiet.
#[local] Hint Resolve quiet_ret quiet_probe quiet_io quiet_bind : quiet.

Lemma quiet_overwrite_and_link (it : Entry) (p : Path) :
  quiet (overwrite_and_link it p).
Proof.
  unfold overwrite_and_link. apply quiet_bind; [auto with quiet|].
  intros pd. apply quiet_bind; [|auto with quiet].
  destruct pd; [auto with quiet|].
  apply quiet_bind; [auto with quiet|]. intros []; auto with quiet.
Qed.


Lemma select_free_quiet {A} (m : M A) : quiet m -> select_free (fun _ => True) m.
Proof.
  intros Hq w. split; [|done]. exists []. rewrite app_nil_r.
  split; [apply Hq|constructor].
Qed.

Lemma select_free_ret {A} (P : A -> Prop) (a : A) : P a -> select_free P (ret a).
Proof.
  intros Ha w. split.
  - exists []. rewrite app_nil_r. split; [done|constructor].
  - intros a' w' [= <- _]. done.
Qed.

Lemma select_free_confirm (r p : string) :
  select_free (fun _ => True) (confirm r p).
Proof.
  intros w. split; [|done]. exists [PConfirm r p].
  unfold confirm. destruct (answers w) as [|[] ?]; simpl;
    (split; [done|repeat constructor]).
Qed.

Lemma select_free_bind {A B} (Q : A -> Prop) (P : B -> Prop) (m : M A) (k : A -> M B) :
  select_free Q m -> (forall a, Q a -> select_free P (k a)) ->
  select_free P (bind m k).
Proof.
  intros Hm Hk w. destruct (Hm w) as [[ps1 [Hp1 Hn1]] HQ]. unfold bind.
  destruct (m w) as [[e|a] w1] eqn:E; simpl in *.
  - split; [by exists ps1|done].
  - destruct (Hk a (HQ a w1 eq_refl) w1) as [[ps2 [Hp2 Hn2]] HP].
    split; [|done]. exists (ps1 ++ ps2). rewrite Hp2, Hp1, app_assoc.
    split; [done|]. by apply Forall_app.
Qed.

Lemma select_free_prepare_parent (it : Entry) (p : Path) :
  select_free (fun _ => True) (prepare_parent it p).
Proof.
  unfold prepare_parent. destruct (parent p) as [par|];
    [|apply select_free_quiet, quiet_ret].
  apply (select_free_bind (fun _ => True)); [apply select_free_quiet, quiet_probe|].
  intros pf _. apply (select_free_bind (fun _ => True)).
  - destruct pf; [|apply select_free_quiet, quiet_ret].
    apply (select_free_bind (fun _ => True)); [apply select_free_confirm|].
    intros [] _; apply select_free_quiet; simpl; auto with quiet.
  - intros _ _. apply (select_free_bind (fun _ => True)); [apply select_free_quiet, quiet_probe|].
    intros [] _; apply select_free_quiet; simpl; auto with quiet.
Qed.

Lemma existsb_in (r : string) (ow : list string) :
  existsb (String.eqb r) ow = true <-> r ∈ ow.
Proof.
  rewrite existsb_exists, list_elem_of_In. split.
  - intros [x [Hx Heq]]. apply String.eqb_eq in Heq. by subst.
  - intros Hin. exists r. split; [done|]. apply String.eqb_refl.
Qed.

(** With [overwrite_all] set or the remote pre-authorized, an entry
    shows no [Select] and keeps [overwrite_all]. *)
Lemma select_free_link_entry (ow : list string) (owall : bool) (it : Entry) :
  owall = true \/ remote it ∈ ow ->
  select_free (fun r => r.1 = owall) (link_entry ow owall it).
Proof.
  intros Hc. unfold link_entry.
  assert (negb owall && negb (existsb (String.eqb (remote it)) ow) = false) as Hb.
  { destruct Hc as [->|Hin]; [done|]. apply existsb_in in Hin. rewrite Hin.
    apply andb_false_r. }
  rewrite Hb.
  apply (select_free_bind (fun _ => True)); [apply select_free_prepare_parent|].
  intros _ _. apply (select_free_bind (fun _ => True)); [apply select_free_quiet, quiet_probe|].
  intros ex _. destruct ex.
  - apply (select_free_bind (fun _ => True));
      [apply select_free_quiet, quiet_overwrite_and_link|].
    intros _ _. by apply select_free_ret.
  - apply (select_free_bind (fun _ => True)); [apply select_free_quiet, quiet_io|].
    intros _ _. by apply select_free_ret.
Qed.

(** A pass in which [overwrite_all] is set, or every remote is
    pre-authorized, never shows a [Select]. *)
Lemma select_free_link_loop (ow : list string) (es : list Entry)
    (owall : bool) (acc : list Entry) :
  owall = true \/ Forall (fun e => remote e ∈ ow) es ->
  select_free (fun _ => True) (link_loop ow es owall acc).
Proof.
  revert owall acc. induction es as [|it es IH]; intros owall acc Hc; simpl.
  - by apply select_free_ret.
  - apply (select_free_bind (fun r => r.1 = owall)).
    + apply select_free_link_entry.
      destruct Hc as [->|Hf]; [by left|right]. by inversion Hf.
    + intros r Hr. apply IH. rewrite Hr.
      destruct Hc as [->|Hf]; [by left|right]. by inversion Hf.
Qed.

(** Ancestor preparation does nothing when the remote already exists. *)
Lemma prepare_parent_existing (it : Entry) (p : Path) (w : World) :
  exists_ (fs w) p = true -> prepare_parent it p w = (inr tt, w).
Proof.
  intros Hex. unfold prepare_parent.
  destruct (parent p) as [par|] eqn:Hp; [|done].
  destruct (parent_of_existing _ _ _ Hex Hp) as [(-> & Hf & Hd)|(Hf & Hd)].
  - cbv [bind probe ret io]. cbn -[is_file is_dir create_dir_all].
    rewrite Hf. cbn -[is_file is_dir create_dir_all]. rewrite Hd.
    cbn. rewrite set_fs_same. done.
  - cbv [bind probe ret io]. cbn -[is_file is_dir create_dir_all].
    rewrite Hf. cbn -[is_file is_dir create_dir_all]. rewrite Hd. done.
Qed.

(** The results of a pass extend the accumulator with a sublist of the
    entries still to come. *)
Lemma link_loop_result (ow : list string) (es : list Entry) (owall : bool)
    (acc res : list Entry) (w w' : World) :
  link_loop ow es owall acc w = (inr res, w') ->
  exists l, res = acc ++ l /\ sublist l es.
Proof.
  revert owall acc w. induction es as [|it es IH]; intros owall acc w H; simpl in H.
  - injection H as <- _. exists []. rewrite app_nil_r. split; [done|constructor].
  - unfold bind in H. destruct (link_entry ow owall it w) as [[e|[b pushed]] w1]; [done|].
    simpl in H. apply IH in H as [l [-> Hl]]. destruct pushed.
    + exists (it :: l). rewrite <- app_assoc. split; [done|]. by constructor.
    + exists l. split; [done|]. by constructor.
Qed.

End LinkFacts.

Module LinkSteps.
Import RustStr RustPath Os Dotgirl OsFacts LinkFacts LinkPreds.
Local Open Scope list_scope.

Lemma bind_ret_l {A B} (a : A) (k : A -> M B) (w : World) :
  bind (ret a) k w = k a w.
Proof. done. Qed.

Lemma bind_assoc {A B C} (m : M A) (k : A -> M B) (h : B -> M C) (w : World) :
  bind (bind m k) h w = bind m (fun a => bind (k a) h) w.
Proof. unfold bind. by destruct (m w) as [[]]. Qed.

(** An existing remote, with [overwrite_all] set or pre-authorized: no
    prompt, straight to [overwrite_and_link]. *)
Lemma link_entry_authorized (ow : list string) (owall : bool) (it : Entry) (w : World) :
  exists_ (fs w) (components (remote it)) = true ->
  owall = true \/ remote it ∈ ow ->
  link_entry ow owall it w =
  bind (overwrite_and_link it (components (remote it))) (fun _ => ret (owall, true)) w.
Proof.
  intros Hex Hc. unfold link_entry. unfold bind at 1.
  rewrite prepare_parent_existing by done. cbv beta iota.
  unfold bind at 1. unfold probe at 1. cbv beta iota. rewrite Hex.
  assert (negb owall && negb (existsb (String.eqb (remote it)) ow) = false) as ->; [|done].
  destruct Hc as [->|Hin]; [done|]. apply existsb_in in Hin. rewrite Hin.
  apply andb_false_r.
Qed.

(** An existing remote, neither [overwrite_all] nor pre-authorized: the
    [Select] decides. *)
Lemma link_entry_unauthorized (ow : list string) (it : Entry) (w : World) :
  exists_ (fs w) (components (remote it)) = true ->
  remote it ∉ ow ->
  link_entry ow false it w =
  bind (select (remote it))
    (fun selection =>
       match selection with
       | 0 => ret (false, false)
       | 2 => _ <- overwrite_and_link it (components (remote it)) ;; ret (true, true)
       | _ => _ <- overwrite_and_link it (components (remote it)) ;; ret (false, true)
       end) w.
Proof.
  intros Hex Hn. unfold link_entry. unfold bind at 1.
  rewrite prepare_parent_existing by done. cbv beta iota.
  unfold bind at 1. unfold probe at 1. cbv beta iota. rewrite Hex.
  assert (existsb (String.eqb (remote it)) ow = false) as ->; [|done].
  destruct (existsb _ ow) eqn:E; [|done]. by apply existsb_in in E.
Qed.

Lemma select_answered (r : string) (c : Choice) (ans : list Answer) (w : World) :
  answers w = ASelect c :: ans ->
  select r w = (inr (choice_index c), set_dialog ans (prompts w ++ [PSelect r]) w).
Proof. intros H. unfold select. by rewrite H. Qed.

(** The [Select] for an unauthorized existing remote is shown whatever
    the user then answers. *)
Lemma link_entry_shows_select (ow : list string) (it : Entry) (w : World) :
  exists_ (fs w) (components (remote it)) = true ->
  remote it ∉ ow ->
  prompts (link_entry ow false it w).2 = prompts w ++ [PSelect (remote it)].
Proof.
  intros Hex Hn. rewrite link_entry_unauthorized by done.
  unfold bind at 1, select.
  destruct (answers w) as [|[b|c] ans]; simpl; try done.
  destruct (choice_index c) as [|[|[|n]]]; simpl; try done;
    apply quiet_bind; auto using quiet_overwrite_and_link, quiet_ret.
Qed.

Lemma previous_entries_relink (lock : Lock) (name : string) (bundle : Bundle)
    (linked : list Entry) :
  previous_entries (relink_lock lock name bundle linked) name =
  if String.eqb (id bundle) name then map remote linked else [].
Proof.
  unfold previous_entries, relink_lock. simpl.
  induction (bundles lock) as [|b bs IH]; simpl.
  - by destruct (String.eqb (id bundle) name).
  - rewrite filter_cons. case_decide as H; simpl; [|done].
    rewrite H. exact IH.
Qed.

Lemma bind_ext {A B} (m : M A) (k k' : A -> M B) (w : World) :
  (forall a w', k a w' = k' a w') -> bind m k w = bind m k' w.
Proof. intros H. unfold bind. destruct (m w) as [[]]; auto. Qed.

Lemma bind_eq {A B} (m m' : M A) (k : A -> M B) (w : World) :
  m w = m' w -> bind m k w = bind m' k w.
Proof. intros H. unfold bind. by rewrite H. Qed.

(** [cmd_link] on a bundle whose metadata is present: link, then write
    the lock. *)
Lemma cmd_link_found (name : string) (w : World) (bundle : Bundle) :
  bundle_dirs w !! name = Some (Some bundle) ->
  cmd_link name w =
  bind (link bundle (previous_entries (default {| bundles := [] |} (lock_file w)) name) false)
    (fun linked => write_lockfile
       (relink_lock (default {| bundles := [] |} (lock_file w)) name bundle linked)) w.
Proof.
  intros Hb. unfold cmd_link. unfold bind at 1, get_lockfile. cbv beta iota.
  unfold bind at 1. cbv beta iota. rewrite Hb. done.
Qed.

End LinkSteps.

(** ** Claims on the link engine *)
Module LinkClaims.
Import RustStr RustPath Os Dotgirl OsFacts LinkFacts LinkSteps LinkPreds LinkFixtures.
Local Open Scope list_scope.

(** C6: when the pass reaches an entry whose remote's parent is a file
    and the user declines to remove it, the pass stops with an error:
    [create_dir_all] fails on the file and [?] returns it. Nothing else
    happens: the filesystem is unchanged, only that confirmation was
    shown and answered, and no later entry is processed. ([acc] and [w]
    are the accumulated result and the world when the pass reaches the
    entry.) *)
Theorem declined_parent_aborts_pass (ow : list string) (it : Entry)
    (rest acc : list Entry) (owall : bool) (w : World) (par : Path)
    (ans : list Answer)
    (Hpar : parent (components (remote it)) = Some par)
    (Hfile : is_file (fs w) par = true)
    (Hans : answers w = AConfirm false :: ans) :
  link_loop ow (it :: rest) owall acc w =
  (inl (IoError AlreadyExists),
   set_dialog ans (prompts w ++ [PConfirm (remote it) (key par)]) w).
Proof.
  cbn [link_loop]. unfold bind at 1. unfold link_entry. unfold bind at 1.
  unfold prepare_parent. rewrite Hpar.
  unfold bind at 1. unfold probe at 1. cbv beta iota. rewrite Hfile.
  unfold bind at 1. unfold bind at 1. unfold confirm at 1. rewrite Hans.
  cbv beta iota. unfold ret at 1. cbv beta iota.
  unfold bind at 1. unfold probe at 1. cbv beta iota.
  change (fs (set_dialog ans (prompts w ++ [PConfirm (remote it) (key par)]) w))
    with (fs w).
  rewrite (is_file_not_dir _ _ Hfile). cbv beta iota. simpl negb. cbv iota.
  unfold io at 1. cbn beta iota delta [negb].
  change (fs (set_dialog ans (prompts w ++ [PConfirm (remote it) (key par)]) w))
    with (fs w).
  rewrite (create_dir_all_on_file _ _ Hfile). cbv beta iota.
  unfold set_fs, set_dialog. simpl. done.
Qed.


Lemma declined_parent_aborts_pass_witness :
  parent (components (remote f_entry)) = Some (components "/h/d") /\
  is_file (fs declining_world) (components "/h/d") = true /\
  answers declining_world = [AConfirm false] /\
  link_loop [] [f_entry; g_entry] false [] declining_world =
  (inl (IoError AlreadyExists),
   set_dialog [] (prompts declining_world ++ [PConfirm "/h/d/f" (key (components "/h/d"))])
     declining_world).
Proof.
  split; [reflexivity|]. split; [reflexivity|]. split; [reflexivity|].
  apply (declined_parent_aborts_pass [] f_entry [g_entry] [] false declining_world
           (components "/h/d") []); reflexivity.
Defined.


(** C7 (amended): (1) for an entry whose remote exists, with
    [overwrite_all] set or the remote pre-authorized, no prompt is shown
    and the engine goes straight to overwriting; (2) answering
    "overwrite all" continues the pass with [overwrite_all = true];
    (3) a pass with [overwrite_all] set never shows the conflict
    [Select]; (4) so a re-Link whose remotes all come from the previous
    Lock record never shows the [Select] (only the confirmation about a
    parent that is a file can appear). *)
Theorem preauthorized_remotes_never_select :
  (forall (ow : list string) (owall : bool) (it : Entry) (w : World),
     exists_ (fs w) (components (remote it)) = true ->
     owall = true \/ remote it ∈ ow ->
     link_entry ow owall it w =
       bind (overwrite_and_link it (components (remote it)))
            (fun _ => ret (owall, true)) w /\
     answers (link_entry ow owall it w).2 = answers w /\
     prompts (link_entry ow owall it w).2 = prompts w) /\
  (forall (ow : list string) (it : Entry) (rest acc : list Entry) (w : World)
          (ans : list Answer),
     exists_ (fs w) (components (remote it)) = true ->
     remote it ∉ ow ->
     answers w = ASelect OverwriteAll :: ans ->
     link_loop ow (it :: rest) false acc w =
       bind (overwrite_and_link it (components (remote it)))
            (fun _ => link_loop ow rest true (acc ++ [it]))
            (set_dialog ans (prompts w ++ [PSelect (remote it)]) w)) /\
  (forall (ow : list string) (es acc : list Entry) (w : World),
     exists ps, prompts (link_loop ow es true acc w).2 = prompts w ++ ps /\
                no_select ps) /\
  (forall (name : string) (w : World) (bundle : Bundle),
     bundle_dirs w !! name = Some (Some bundle) ->
     Forall (fun e => remote e ∈
               previous_entries (default {| bundles := [] |} (lock_file w)) name)
            (entries bundle) ->
     exists ps, prompts (cmd_link name w).2 = prompts w ++ ps /\ no_select ps).
Proof.
  split; [|split; [|split]].
  - intros ow owall it w Hex Hc.
    pose proof (link_entry_authorized ow owall it w Hex Hc) as He.
    rewrite He. split; [done|].
    apply quiet_bind; [apply quiet_overwrite_and_link|intros; apply quiet_ret].
  - intros ow it rest acc w ans Hex Hn Hans. cbn [link_loop].
    rewrite (bind_eq _ _ _ _ (link_entry_unauthorized ow it w Hex Hn)).
    rewrite bind_assoc. unfold bind at 1. rewrite (select_answered _ _ _ _ Hans).
    cbv beta iota. simpl choice_index. cbv iota.
    rewrite bind_assoc. apply bind_ext. intros a w'. done.
  - intros ow es acc w. apply (select_free_link_loop ow es true acc). by left.
  - intros name w bundle Hb Hpre. rewrite (cmd_link_found _ _ _ Hb).
    destruct (select_free_link_loop
                (previous_entries (default {| bundles := [] |} (lock_file w)) name)
                (entries bundle) false [] (or_intror Hpre) w) as [[ps [Hp Hns]] _].
    exists ps. unfold bind, link. unfold link in Hp.
    destruct (link_loop _ (entries bundle) false [] w) as [[e|linked] w1]; simpl in *;
      [done|]. done.
Qed.

Lemma preauthorized_remotes_never_select_witness :
  (link_entry [] true LockFixtures.bashrc relink_world =
     bind (overwrite_and_link LockFixtures.bashrc (components "/h/.bashrc"))
          (fun _ => ret (true, true)) relink_world /\
   answers (link_entry [] true LockFixtures.bashrc relink_world).2 = answers relink_world /\
   prompts (link_entry [] true LockFixtures.bashrc relink_world).2 = prompts relink_world) /\
  (link_loop [] [LockFixtures.bashrc] false []
      (set_dialog [ASelect OverwriteAll] [] relink_world) =
     bind (overwrite_and_link LockFixtures.bashrc (components "/h/.bashrc"))
          (fun _ => link_loop [] [] true [LockFixtures.bashrc])
          (set_dialog [] [PSelect "/h/.bashrc"]
             (set_dialog [ASelect OverwriteAll] [] relink_world))) /\
  (exists ps, prompts (cmd_link "shell" relink_world).2 = prompts relink_world ++ ps /\
              no_select ps).
Proof.
  destruct preauthorized_remotes_never_select as (P1 & P2 & _ & P4).
  split; [|split].
  - apply (P1 [] true LockFixtures.bashrc relink_world); [reflexivity|by left].
  - apply (P2 [] LockFixtures.bashrc [] [] (set_dialog [ASelect OverwriteAll] [] relink_world) []).
    + reflexivity.
    + set_solver.
    + reflexivity.
  - apply (P4 "shell" relink_world {| id := "shell"; entries := [LockFixtures.bashrc] |}).
    + reflexivity.
    + vm_compute. repeat constructor.
Defined.


(** C7, counterexample: a re-Link whose only remote comes from the
    previous Lock record still prompts, asking to replace the file
    [/h/d] by a directory. *)
Lemma relink_still_confirms_parent :
  previous_entries (default {| bundles := [] |} (lock_file parent_became_file)) "shell"
    = ["/h/d/f"] /\
  prompts (cmd_link "shell" parent_became_file).2 = [PConfirm "/h/d/f" "/h/d"] /\
  (cmd_link "shell" parent_became_file).1 = inr tt.
Proof. vm_compute. repeat split. Qed.

(** C8 (amended): when the pass reaches an existing, unauthorized remote
    with [overwrite_all] unset and the user picks "skip", the step leaves
    the filesystem as it is and pushes nothing; if no other entry of the
    bundle has the same remote, the remote is then absent from the
    linked sequence and from the pre-authorization set [cmd_link] will
    read from the lock it writes; and a later pass that reaches it
    unauthorized, existing and with [overwrite_all] unset shows the
    [Select] for it again. ([acc] and [w] are the accumulated result and
    the world when the pass reaches the entry.) *)
Theorem skip_is_not_sticky (name : string) (bundle : Bundle) (lock : Lock)
    (ow : list string) (it : Entry) (rest acc : list Entry) (w : World)
    (ans : list Answer)
    (Hex : exists_ (fs w) (components (remote it)) = true)
    (Hnot : remote it ∉ ow)
    (Hans : answers w = ASelect Skip :: ans)
    (Hacc : remote it ∉ map remote acc)
    (Hrest : remote it ∉ map remote rest) :
  link_entry ow false it w =
    (inr (false, false), set_dialog ans (prompts w ++ [PSelect (remote it)]) w) /\
  (forall res w', link_loop ow (it :: rest) false acc w = (inr res, w') ->
     (remote it ∉ map remote res) /\
     (remote it ∉ previous_entries (relink_lock lock name bundle res) name)) /\
  (forall (ow' : list string) (w'' : World),
     remote it ∉ ow' -> exists_ (fs w'') (components (remote it)) = true ->
     prompts (link_entry ow' false it w'').2 = prompts w'' ++ [PSelect (remote it)]).
Proof.
  assert (link_entry ow false it w =
    (inr (false, false), set_dialog ans (prompts w ++ [PSelect (remote it)]) w)) as Hstep.
  { rewrite (link_entry_unauthorized ow it w Hex Hnot).
    unfold bind at 1. rewrite (select_answered _ _ _ _ Hans). done. }
  split; [done|split].
  - intros res w' H. cbn [link_loop] in H. unfold bind at 1 in H. rewrite Hstep in H.
    simpl in H. apply link_loop_result in H as [l [-> Hl]].
    assert (remote it ∉ map remote (acc ++ l)) as Hres.
    { rewrite map_app. intros Hin. apply elem_of_app in Hin as [Hin|Hin]; [done|].
      apply Hrest. apply list_elem_of_In in Hin. apply list_elem_of_In.
      apply in_map_iff in Hin as [e [He Hin]]. apply in_map_iff. exists e.
      split; [done|]. apply list_elem_of_In. apply list_elem_of_In in Hin.
      by eapply elem_of_sublist. }
    split; [done|]. rewrite previous_entries_relink.
    destruct (String.eqb (id bundle) name); [done|]. set_solver.
  - intros ow' w'' Hn' Hex'. by apply link_entry_shows_select.
Qed.


Lemma skip_is_not_sticky_witness :
  link_entry [] false x_entry skipping_world =
    (inr (false, false), set_dialog [] [PSelect "/h/.x"] skipping_world) /\
  (forall res w', link_loop [] [x_entry] false [] skipping_world = (inr res, w') ->
     ("/h/.x" ∉ map remote res) /\
     ("/h/.x" ∉ previous_entries
                (relink_lock {| bundles := [] |} "dots" {| id := "dots"; entries := [x_entry] |} res)
                "dots")) /\
  prompts (link_entry [] false x_entry skipping_world).2 = [PSelect "/h/.x"].
Proof.
  destruct (skip_is_not_sticky "dots" {| id := "dots"; entries := [x_entry] |}
              {| bundles := [] |} [] x_entry [] [] skipping_world []) as (H1 & H2 & H3).
  - reflexivity.
  - set_solver.
  - reflexivity.
  - simpl. set_solver.
  - simpl. set_solver.
  - split; [exact H1|]. split; [exact H2|].
    apply (H3 [] skipping_world); [set_solver|reflexivity].
Defined.


(** C8, counterexample: the user skips [~/.x] at its first occurrence
    (and overwrites at the second); the entry is in the returned
    sequence and in the lock record, and the next Link shows no prompt
    for it. *)
Lemma skipped_entry_back_in_lock :
  prompts (cmd_link "dots" twice_world).2 = [PSelect "/h/.x"; PSelect "/h/.x"] /\
  lock_file (cmd_link "dots" twice_world).2 =
    Some {| bundles := [{| id := "dots"; entries := [x_entry] |}] |} /\
  prompts (cmd_link "dots" (cmd_link "dots" twice_world).2).2 =
    prompts (cmd_link "dots" twice_world).2 /\
  (cmd_link "dots" (cmd_link "dots" twice_world).2).1 = inr tt.
Proof. vm_compute. repeat split. Qed.

End LinkClaims.

(* ================================================================== *)
(** * Further properties of the code *)

(* ------------------------------------------------------------------ *)
(** ** The in-memory filesystem: composition of its operations *)
Module MemoryMore.
Import RustStr RustPath Memory StrFacts MemoryFacts MemoryPreds.

Lemma starts_with_append_l (p q : string) : starts_with (String.append p q) p = true.
Proof. induction p as [|c p IH]; simpl; [by destruct q|]. by rewrite Ascii.eqb_refl, IH. Qed.

(** Once the loop of [mkdir_all] has recorded an error, it keeps one. *)
Lemma mkdir_all_go_keeps_error (parts : list Component) (buf : string)
    (e : Error) (d : Disk) :
  (mkdir_all_go parts buf (inl e) d).1 <> inr tt.
Proof.
  revert buf e d. induction parts as [|part parts IH]; intros buf e d; simpl; [done|].
  destruct (d !! push buf (as_os_str part)) as [[]|]; apply IH.
Qed.

(** A visited key that held a file or a symlink makes the loop fail. *)
Lemma mkdir_all_go_conflict_fails (parts : list Component) (buf : string)
    (r : Error + unit) (d : Disk) (k : string) :
  k ∈ prefix_keys parts buf -> conflicting (d !! k) ->
  (mkdir_all_go parts buf r d).1 <> inr tt.
Proof.
  revert buf r d. induction parts as [|part parts IH]; intros buf r d Hk Hc; simpl in *.
  - set_solver.
  - set (buf' := push buf (as_os_str part)) in *.
    destruct (decide (k = buf')) as [->|Hne].
    + destruct (d !! buf') as [[]|]; try done; apply mkdir_all_go_keeps_error.
    + apply IH; [set_solver|]. by rewrite lookup_insert_ne by done.
Qed.

(** The last key [mkdir_all] visits is the path rebuilt from its
    components. *)
Lemma build_in_prefix_keys (cs : list Component) (buf : string) :
  cs <> [] ->
  fold_left (fun b c => push b (as_os_str c)) cs buf ∈ prefix_keys cs buf.
Proof.
  revert buf. induction cs as [|c cs IH]; intros buf Hne; [done|]. simpl.
  destruct cs as [|c' cs'].
  - simpl. set_solver.
  - apply elem_of_cons. right. apply IH. done.
Qed.

(** No segment of [split_slash] starts or ends with a separator. *)
Lemma split_slash_no_sep (s : string) :
  Forall (fun x => ends_with_slash x = false /\ starts_with x "/" = false) (split_slash s).
Proof.
  induction s as [|c s IH]; simpl; [by repeat constructor|].
  destruct (Ascii.eqb c "/") eqn:Ec; [by constructor|].
  assert (Ascii.eqb "/" c = false) as Ec' by (by rewrite Ascii.eqb_sym).
  destruct (split_slash s) as [|x xs] eqn:Es.
  - constructor; [|constructor]. cbn -[Ascii.eqb]. rewrite Ec, Ec'. done.
  - inversion IH as [|? ? [Hx _] Hxs]; subst. constructor; [|done].
    cbn -[Ascii.eqb]. rewrite Ec'. split; [|done]. destruct x; [done|]. done.
Qed.

Lemma ends_with_slash_append (s1 s2 : string) :
  s2 <> "" -> ends_with_slash (String.append s1 s2) = ends_with_slash s2.
Proof.
  intros Hne. induction s1 as [|c s1 IH]; [done|]. simpl.
  destruct (String.append s1 s2) eqn:E; [|done].
  destruct s1, s2; done.
Qed.

Lemma components_sep_free (p : string) : Forall sep_free (components p).
Proof.
  unfold components. apply Forall_app. split.
  - destruct (starts_with p "/"); [by repeat constructor; left|].
    destruct (String.eqb p "." || starts_with p "./");
      [constructor; [|constructor]; right; done|constructor].
  - pose proof (split_slash_no_sep p) as H. induction H as [|x xs [Hx1 Hx2] _ IH]; simpl; [constructor|].
    unfold parse_segment.
    destruct (String.eqb x "") eqn:E0; [done|].
    destruct (String.eqb x ".") eqn:E1; [done|].
    destruct (String.eqb x "..") eqn:E2; constructor; try done; right; simpl.
    + done.
    + apply String.eqb_neq in E0. done.
Qed.

(** Every key [mkdir_all] visits is ["/"] or does not end in ['/']. *)
Lemma prefix_keys_no_trailing_sep (cs : list Component) (buf : string) :
  Forall sep_free cs ->
  forall k, k ∈ prefix_keys cs buf -> k = "/" \/ ends_with_slash k = false.
Proof.
  revert buf. induction cs as [|c cs IH]; intros buf Hf k Hk; simpl in Hk; [set_solver|].
  inversion Hf as [|? ? Hc Hcs]; subst.
  apply elem_of_cons in Hk as [->|Hk]; [|by apply (IH (push buf (as_os_str c)) Hcs)].
  unfold push. destruct Hc as [->|(Hne & He & Hs)].
  - left. done.
  - rewrite Hs. right.
    destruct (String.eqb buf "" || ends_with_slash buf);
      rewrite ends_with_slash_append; try done.
    destruct (as_os_str c); done.
Qed.

(* ---- further properties ---- *)

(** X1: [get] after [put] reads back the content just stored at that
    path, and every other path reads as before. *)
Theorem get_after_put (p q c : string) (d : Disk) :
  (put p c d).1 = inr tt /\
  get q (put p c d).2 = if String.eqb q p then inr c else get q d.
Proof.
  split; [done|]. unfold get, put. simpl.
  destruct (String.eqb_spec q p) as [->|Hne].
  - by rewrite lookup_insert_eq.
  - by rewrite lookup_insert_ne by done.
Qed.

(** X2: [symlink(from, to)] succeeds and leaves at [to] an entry that is
    a symlink, neither a file nor a directory, and not readable by
    [get]; the target [from] is not recorded, and every other path is
    untouched. *)
Theorem symlink_makes_unreadable_link (from from' to q : string) (d : Disk) :
  (symlink from to d).1 = inr tt /\
  is_symlink to (symlink from to d).2 = true /\
  is_file to (symlink from to d).2 = false /\
  is_dir to (symlink from to d).2 = false /\
  get to (symlink from to d).2 = inl (Simple "file was not readable") /\
  symlink from' to d = symlink from to d /\
  (q <> to -> (symlink from to d).2 !! q = d !! q).
Proof.
  unfold symlink, is_symlink, is_file, is_dir, get. simpl.
  rewrite lookup_insert_eq. repeat split; try done.
  intros Hq. by rewrite lookup_insert_ne by done.
Qed.

Lemma symlink_makes_unreadable_link_witness :
  "/x" <> "/l" /\
  (symlink "/t" "/l" (<["/x" := Dir]> ∅)).2 !! "/x" = Some Dir.
Proof.
  split; [done|].
  pose proof (symlink_makes_unreadable_link "/t" "/u" "/l" "/x" (<["/x" := Dir]> ∅))
    as (_ & _ & _ & _ & _ & _ & H).
  apply H. done.
Defined.

(** X3: [mkdir_all] fails exactly when one of the keys it visits held a
    file or a symlink before the call. *)
Theorem mkdir_all_fails_iff_conflict (path : string) (d : Disk) :
  (mkdir_all path d).1 <> inr tt <->
  exists k, k ∈ prefix_keys (components path) "" /\ conflicting (d !! k).
Proof.
  unfold mkdir_all. split.
  - apply mkdir_all_go_conflict.
  - intros (k & Hk & Hc). by apply (mkdir_all_go_conflict_fails _ _ _ _ k).
Qed.

(** X4: for a path written in normal form (it is its own rebuilt
    components, e.g. ["/a/b"]), [mkdir_all] makes it a directory:
    [is_dir] holds and [get] reports it as not readable. *)
Theorem mkdir_all_then_is_dir (path : string) (d : Disk)
    (Hnorm : build (components path) = path) (Hne : components path <> []) :
  is_dir path (mkdir_all path d).2 = true /\
  get path (mkdir_all path d).2 = inl (Simple "file was not readable").
Proof.
  destruct (mkdir_all_go_lookup (components path) "" (inr tt) d) as [H1 _].
  assert ((mkdir_all path d).2 !! path = Some Dir) as Hd.
  { apply H1. pose proof (build_in_prefix_keys (components path) "" Hne) as Hin.
    unfold build in Hnorm. by rewrite Hnorm in Hin. }
  unfold is_dir, get. rewrite Hd. done.
Qed.

Lemma mkdir_all_then_is_dir_witness :
  build (components "/a/b") = "/a/b" /\ components "/a/b" <> [] /\
  is_dir "/a/b" (mkdir_all "/a/b" ∅).2 = true.
Proof.
  split; [reflexivity|]. split; [discriminate|].
  apply (mkdir_all_then_is_dir "/a/b" ∅); [reflexivity|discriminate].
Defined.

(** X5: [mkdir_all] never writes the key of a path that ends in ['/']
    (other than ["/"]): after [mkdir_all "/a/b/"] the entry at
    ["/a/b/"] is what it was before, so [is_dir "/a/b/"] stays false on
    a disk that had nothing there, although ["/a/b"] is now a
    directory. *)
Theorem mkdir_all_skips_trailing_slash_key (path : string) (d : Disk)
    (Hslash : ends_with_slash path = true) (Hroot : path <> "/") :
  (mkdir_all path d).2 !! path = d !! path.
Proof.
  destruct (mkdir_all_go_lookup (components path) "" (inr tt) d) as [_ H2].
  apply H2. intros Hin.
  destruct (prefix_keys_no_trailing_sep _ "" (components_sep_free path) path Hin)
    as [->|Hf]; [done|congruence].
Qed.

Lemma mkdir_all_skips_trailing_slash_key_witness :
  ends_with_slash "/a/b/" = true /\ "/a/b/" <> "/" /\
  is_dir "/a/b/" (mkdir_all "/a/b/" ∅).2 = false /\
  is_dir "/a/b" (mkdir_all "/a/b/" ∅).2 = true.
Proof.
  split; [reflexivity|]. split; [discriminate|]. split.
  - unfold is_dir. rewrite (mkdir_all_skips_trailing_slash_key "/a/b/" ∅);
      [reflexivity|reflexivity|discriminate].
  - vm_compute. reflexivity.
Defined.

(** The copy loop of [copy] writes only keys under the destination and
    never removes a key. *)
Lemma copy_fold_frame (to : string) (l : list (string * string)) (d : Disk) :
  Forall (fun ft => starts_with ft.2 to = true) l ->
  (forall k, starts_with k to = false ->
     foldl (fun d ft => match d !! ft.1 with
                        | Some entry => <[ft.2 := entry]> d
                        | None => d end) d l !! k = d !! k) /\
  (forall k, is_Some (d !! k) ->
     is_Some (foldl (fun d ft => match d !! ft.1 with
                                 | Some entry => <[ft.2 := entry]> d
                                 | None => d end) d l !! k)).
Proof.
  revert d. induction l as [|[f t] l IH]; intros d Hl; simpl; [done|].
  inversion Hl as [|? ? Hft Hrest]; subst. simpl in Hft.
  destruct (IH (match d !! f with Some entry => <[t := entry]> d | None => d end) Hrest)
    as [IH1 IH2].
  split.
  - intros k Hk. rewrite IH1 by done. destruct (d !! f); [|done].
    rewrite lookup_insert_ne; [done|]. intros ->. congruence.
  - intros k Hk. apply IH2. destruct (d !! f); [|done].
    destruct (decide (t = k)) as [->|Hne].
    + rewrite lookup_insert_eq. by eexists.
    + by rewrite lookup_insert_ne by done.
Qed.

(** X6: [copy from to] (for any enumeration order of the keys) only
    writes keys that start with [to]: every other entry keeps its value,
    and no key present before the copy is missing after it. *)
Theorem copy_writes_only_under_destination (ks : list string) (from to : string) (d : Disk) :
  (forall k, starts_with k to = false -> (copy ks from to d).2 !! k = d !! k) /\
  (forall k, is_Some (d !! k) -> is_Some ((copy ks from to d).2 !! k)).
Proof.
  unfold copy. destruct (d !! from) as [e|] eqn:Hf; [|done]. simpl.
  set (l := map (fun it => (it, String.append to (trim_start_matches it from)))
                (filter (fun it => starts_with it from = true) ks)).
  assert (Forall (fun ft => starts_with ft.2 to = true) l) as Hl.
  { apply Forall_forall. intros ft Hin. apply list_elem_of_In, in_map_iff in Hin as (it & <- & _).
    apply starts_with_append_l. }
  destruct (copy_fold_frame to l d Hl) as [F1 F2].
  split.
  - intros k Hk. rewrite lookup_insert_ne by (intros ->; by rewrite starts_with_refl in Hk).
    destruct e; try done. by apply F1.
  - intros k Hk. destruct (decide (to = k)) as [->|Hne].
    + rewrite lookup_insert_eq. by eexists.
    + rewrite lookup_insert_ne by done. destruct e; try done. by apply F2.
Qed.

(** X7: copying a file or a symlink puts the same entry at [to] and
    changes nothing else; for a file, [get to] then reads what [get
    from] reads. *)
Theorem copy_non_dir (ks : list string) (from to : string) (d : Disk) (e : Entry)
    (Hsrc : d !! from = Some e) (Hnd : e <> Dir) :
  copy ks from to d = (inr tt, <[to := e]> d) /\
  get to (copy ks from to d).2 = get from d.
Proof.
  assert (copy ks from to d = (inr tt, <[to := e]> d)) as Hc.
  { unfold copy. rewrite Hsrc. destruct e; done. }
  split; [done|]. rewrite Hc. unfold get. simpl. by rewrite lookup_insert_eq, Hsrc.
Qed.

Lemma copy_non_dir_witness :
  (<["/a" := File (Some "c")]> ∅ : Disk) !! "/a" = Some (File (Some "c")) /\
  File (Some "c") <> Dir /\
  get "/b" (copy ["/a"] "/a" "/b" (<["/a" := File (Some "c")]> ∅)).2 = inr "c".
Proof.
  split; [reflexivity|]. split; [discriminate|].
  destruct (copy_non_dir ["/a"] "/a" "/b" (<["/a" := File (Some "c")]> ∅) (File (Some "c")))
    as [_ H]; [reflexivity|discriminate|].
  rewrite H. reflexivity.
Defined.

End MemoryMore.

(* ------------------------------------------------------------------ *)
(** ** Storage-local names: errors and shape *)
Module NameMore.
Import RustStr RustPath Name NameSpecs NameClaims.

Lemma starts_with_nil (s : string) : starts_with s "" = true.
Proof. by destruct s. Qed.

Lemma split_slash_cons (s : string) : exists x xs, split_slash s = x :: xs.
Proof.
  induction s as [|c s IH]; simpl; [by eexists _, _|].
  destruct (Ascii.eqb c "/"); [by eexists _, _|].
  destruct IH as (x & xs & ->). by eexists _, _.
Qed.

Lemma split_slash_head_empty (s : string) (xs : list string) :
  split_slash s = "" :: xs -> s = "" \/ starts_with s "/" = true.
Proof.
  destruct s as [|c s]; [by left|]. cbn -[Ascii.eqb].
  destruct (Ascii.eqb c "/") eqn:E.
  - intros _. right. rewrite Ascii.eqb_sym, E, starts_with_nil. done.
  - destruct (split_slash s); intros H; discriminate H.
Qed.

(** [Path::components] is empty only for the empty path. *)
Lemma components_nil (p : string) : components p = [] -> p = "".
Proof.
  unfold components. destruct p as [|c s]; [done|].
  destruct (starts_with (String c s) "/") eqn:E1; [done|].
  destruct (String.eqb (String c s) "." || starts_with (String c s) "./") eqn:E2; [done|].
  assert (Ascii.eqb c "/" = false) as Ec.
  { cbn -[Ascii.eqb] in E1. rewrite starts_with_nil, andb_true_r in E1.
    by rewrite Ascii.eqb_sym. }
  cbn -[Ascii.eqb parse_segment]. rewrite Ec.
  destruct (split_slash_cons s) as (x & xs & Hs). rewrite Hs. simpl.
  unfold parse_segment.
  destruct (String.eqb (String c x) "") eqn:F0; [done|].
  destruct (String.eqb (String c x) ".") eqn:F1; [|by destruct (String.eqb (String c x) "..")].
  apply String.eqb_eq in F1. injection F1 as -> ->.
  destruct (split_slash_head_empty s xs Hs) as [->|Hsl]; [done|].
  cbn -[Ascii.eqb] in E2. rewrite Hsl in E2. rewrite orb_true_r in E2. done.
Qed.

Lemma strip_leading_dots_head (s : string) : starts_with (strip_leading_dots s) "." = false.
Proof.
  induction s as [|c s IH]; [done|]. cbn -[Ascii.eqb].
  destruct (Ascii.eqb c ".") eqn:E; [done|].
  cbn -[Ascii.eqb]. rewrite Ascii.eqb_sym, E. done.
Qed.

(** A byte at or above [0x80] is not ['/']: splitting on ['/'] never
    cuts a multi-byte sequence. *)
Lemma high_not_slash (a : ascii) (lo : nat) :
  128 <= lo -> Nat.leb lo (nat_of_ascii a) = true -> Ascii.eqb a "/" = false.
Proof.
  intros Hlo H. destruct (Ascii.eqb a "/") eqn:E; [|done].
  apply Ascii.eqb_eq in E. subst a. apply Nat.leb_le in H. change (nat_of_ascii "/") with 47 in H. lia.
Qed.

Lemma in_range_not_slash (b : ascii) (lo hi : nat) :
  128 <= lo -> in_range b lo hi = true -> Ascii.eqb b "/" = false.
Proof.
  unfold in_range. intros Hlo H. apply andb_true_iff in H as [H _].
  by eapply high_not_slash.
Qed.

Lemma split_slash_step (a : ascii) (s : string) :
  Ascii.eqb a "/" = false ->
  exists x xs, split_slash s = x :: xs /\ split_slash (String a s) = String a x :: xs.
Proof.
  intros Ha. destruct (split_slash_cons s) as (x & xs & Hs).
  exists x, xs. split; [done|]. cbn -[Ascii.eqb]. by rewrite Ha, Hs.
Qed.

Lemma split_slash_utf8 (n : nat) (s : string) :
  String.length s < n -> utf8_valid s = true ->
  Forall (fun x => utf8_valid x = true) (split_slash s).
Proof.
  revert s. induction n as [|n IH]; intros s Hlen Hv; [simpl in Hlen; lia|].
  destruct s as [|a s1]; [by repeat constructor|].
  cbn [String.length] in Hlen. cbn [utf8_valid] in Hv.
  destruct (Nat.ltb (nat_of_ascii a) 128) eqn:E1.
  - cbn -[Ascii.eqb]. destruct (Ascii.eqb a "/").
    + constructor; [done|]. apply IH; [lia|done].
    + destruct (split_slash_cons s1) as (x & xs & Hs). rewrite Hs.
      pose proof (IH s1 ltac:(lia) Hv) as HF. rewrite Hs in HF.
      inversion HF as [|? ? Hx Hxs]; subst.
      constructor; [|done]. cbn [utf8_valid]. by rewrite E1.
  - assert (Ha : Ascii.eqb a "/" = false).
    { apply (high_not_slash a 128); [lia|]. apply Nat.leb_le.
      apply Nat.ltb_ge in E1. lia. }
    destruct (split_slash_step a s1 Ha) as (x & xs & Hs1 & ->).
    destruct (Nat.leb 194 (nat_of_ascii a) && Nat.leb (nat_of_ascii a) 223) eqn:E2;
      [|destruct (Nat.leb 224 (nat_of_ascii a) && Nat.leb (nat_of_ascii a) 239) eqn:E3;
        [|destruct (Nat.leb 240 (nat_of_ascii a) && Nat.leb (nat_of_ascii a) 244) eqn:E4]];
      try discriminate Hv.
    + destruct s1 as [|b s2]; [discriminate Hv|].
      apply andb_true_iff in Hv as [Hb Hv].
      destruct (split_slash_step b s2 (in_range_not_slash b 128 191 ltac:(lia) Hb))
        as (y & ys & Hs2 & Hs2').
      rewrite Hs2' in Hs1. injection Hs1 as <- <-.
      pose proof (IH s2 ltac:(simpl in Hlen; lia) Hv) as HF. rewrite Hs2 in HF.
      inversion HF as [|? ? Hy Hys]; subst.
      constructor; [|done]. cbn [utf8_valid]. rewrite E1, E2, Hb, Hy. done.
    + destruct s1 as [|b [|c s3]]; try discriminate Hv.
      apply andb_true_iff in Hv as [Hv Hv3]. apply andb_true_iff in Hv as [Hb Hc].
      assert (Hb' : Ascii.eqb b "/" = false).
      { eapply in_range_not_slash; [|exact Hb]. destruct (Nat.eqb _ 224); lia. }
      destruct (split_slash_step b (String c s3) Hb') as (y & ys & Hs2 & Hs2').
      destruct (split_slash_step c s3 (in_range_not_slash c 128 191 ltac:(lia) Hc))
        as (z & zs & Hs3 & Hs3').
      rewrite Hs2' in Hs1. injection Hs1 as <- <-. rewrite Hs3' in Hs2.
      injection Hs2 as <- <-.
      pose proof (IH s3 ltac:(simpl in Hlen; lia) Hv3) as HF. rewrite Hs3 in HF.
      inversion HF as [|? ? Hz Hzs]; subst.
      constructor; [|done]. cbn [utf8_valid]. rewrite E1, E2, E3, Hb, Hc, Hz. done.
    + destruct s1 as [|b [|c [|d s4]]]; try discriminate Hv.
      apply andb_true_iff in Hv as [Hv Hv4]. apply andb_true_iff in Hv as [Hv Hd].
      apply andb_true_iff in Hv as [Hb Hc].
      assert (Hb' : Ascii.eqb b "/" = false).
      { eapply in_range_not_slash; [|exact Hb]. destruct (Nat.eqb _ 240); lia. }
      destruct (split_slash_step b (String c (String d s4)) Hb') as (y & ys & Hs2 & Hs2').
      destruct (split_slash_step c (String d s4) (in_range_not_slash c 128 191 ltac:(lia) Hc))
        as (z & zs & Hs3 & Hs3').
      destruct (split_slash_step d s4 (in_range_not_slash d 128 191 ltac:(lia) Hd))
        as (u & us & Hs4 & Hs4').
      rewrite Hs2' in Hs1. injection Hs1 as <- <-. rewrite Hs3' in Hs2.
      injection Hs2 as <- <-. rewrite Hs4' in Hs3. injection Hs3 as <- <-.
      pose proof (IH s4 ltac:(simpl in Hlen; lia) Hv4) as HF. rewrite Hs4 in HF.
      inversion HF as [|? ? Hu Hus]; subst.
      constructor; [|done]. cbn [utf8_valid]. rewrite E1, E2, E3, E4, Hb, Hc, Hd, Hu. done.
Qed.

(** Every component of a valid UTF-8 path is valid UTF-8. *)
Lemma components_utf8 (p : string) :
  utf8_valid p = true -> Forall (fun c => utf8_valid (as_os_str c) = true) (components p).
Proof.
  intros Hv. unfold components. apply Forall_app. split.
  - destruct (starts_with p "/"); [by repeat constructor|].
    destruct (String.eqb p "." || starts_with p "./"); by repeat constructor.
  - pose proof (split_slash_utf8 (S (String.length p)) p ltac:(lia) Hv) as HF.
    induction (split_slash p) as [|x xs IHx]; [constructor|].
    inversion HF as [|? ? Hx Hxs]; subst. simpl. unfold parse_segment.
    destruct (String.eqb x ""); [by apply IHx|].
    destruct (String.eqb x "."); [by apply IHx|].
    destruct (String.eqb x ".."); constructor; try done; by apply IHx.
Qed.

(** X8: for a path whose text is valid UTF-8, [get_name] fails (with
    [LastComponentInvalid]) exactly on the empty path; every other
    such path, including ["/"], ["."] and [".."], gets a name. *)
Theorem get_name_fails_iff_empty (path : string) (Hutf8 : utf8_valid path = true) :
  (exists e, get_name path = inl e) <-> path = "".
Proof.
  unfold get_name. split.
  - intros [e He]. destruct (last (components path)) as [c|] eqn:Hl.
    + apply last_Some_elem_of in Hl.
      pose proof (components_utf8 path Hutf8) as HF.
      rewrite Forall_forall in HF. rewrite (HF c Hl) in He. done.
    + apply components_nil. by apply last_None.
  - intros ->. by eexists.
Qed.

Lemma get_name_fails_iff_empty_witness :
  utf8_valid "/h/x" = true /\ ((exists e, get_name "/h/x" = inl e) <-> "/h/x" = "").
Proof.
  split; [reflexivity|]. apply get_name_fails_iff_empty. reflexivity.
Defined.

(** X9: a name returned by [get_name] never starts with a dot. *)
Theorem get_name_no_leading_dot (path n : string) (H : get_name path = inr n) :
  starts_with n "." = false.
Proof.
  unfold get_name in H. destruct (last (components path)); [|done].
  destruct (utf8_valid _); [|done].
  injection H as <-. rewrite trim_dot. apply strip_leading_dots_head.
Qed.

Lemma get_name_no_leading_dot_witness :
  get_name "/h/...x" = inr "x" /\ starts_with "x" "." = false.
Proof.
  split; [reflexivity|]. apply (get_name_no_leading_dot "/h/...x"). reflexivity.
Defined.

End NameMore.

(* ------------------------------------------------------------------ *)
(** ** The link engine on free, existing and dangling remotes *)
Module LinkMore.
Import RustStr RustPath Os Dotgirl OsFacts LinkFacts LinkSteps LinkPreds.
Local Open Scope list_scope.

(** [stat] never ends on a link: it either resolves or fails. *)
Lemma metadata_go_not_link (fuel : nat) (f : Fs) (p : Path) (t : string) :
  metadata_go fuel f p <> Some (NLink t).
Proof.
  revert p. induction fuel as [|fuel IH]; intros p; simpl; [done|].
  destruct (symlink_metadata f p) as [[]|]; try done; apply IH.
Qed.

Lemma remove_file_present (f : Fs) (p : Path) (n : Node) :
  symlink_metadata f p = Some n -> n <> NDir ->
  remove_file f p = (inr tt, delete (key p) f).
Proof.
  intros Hs Hn. apply symlink_metadata_Some in Hs as (Hne & Hw & Hk).
  unfold remove_file. destruct p as [|c p]; [done|]. rewrite Hw, Hk.
  destruct n; done.
Qed.

Lemma symlink_absent (f : Fs) (o : string) (p : Path) :
  p <> [] -> walk f (ancestors p) = inr tt -> f !! key p = None ->
  symlink f o p = (inr tt, <[key p := NLink o]> f).
Proof.
  intros Hne Hw Hk. unfold symlink. destruct p as [|c p]; [done|]. by rewrite Hw, Hk.
Qed.

(** Deleting a key that holds no directory keeps every walk through
    directories. *)
Lemma walk_delete (f : Fs) (qs : list Path) (k : string) (n : Node) :
  walk f qs = inr tt -> f !! k = Some n -> n <> NDir ->
  walk (delete k f) qs = inr tt.
Proof.
  intros Hw Hk Hn. induction qs as [|q qs IH]; [done|]. simpl in *.
  destruct (f !! key q) as [[]|] eqn:Hq; try done.
  rewrite lookup_delete_ne; [by rewrite Hq; apply IH|].
  intros ->. congruence.
Qed.

(** The ancestors of the path below a directory lead through
    directories. *)
Lemma walk_inits_dir (f : Fs) (par : Path) :
  symlink_metadata f par = Some NDir -> walk f (inits par) = inr tt.
Proof.
  intros Hs. apply symlink_metadata_Some in Hs as (Hne & Hw & Hk).
  assert (par = removelast par ++ [List.last par RootDir]) as Hsplit
    by (apply app_removelast_last; done).
  unfold ancestors in Hw. rewrite Hsplit, inits_snoc, removelast_last in Hw.
  rewrite Hsplit, inits_snoc, <- Hsplit, walk_app, Hw. simpl. by rewrite Hk.
Qed.

(** Below an entry that is present, the parent is the empty path or a
    directory. *)
Lemma parent_of_present (f : Fs) (p par : Path) (n : Node) :
  symlink_metadata f p = Some n -> parent p = Some par ->
  (par = [] /\ is_file f par = false /\ is_dir f par = false) \/
  (is_file f par = false /\ is_dir f par = true).
Proof.
  intros Hs Hp.
  apply symlink_metadata_Some in Hs as (_ & Hw & _).
  destruct (ancestors_of_parent _ _ Hp) as [Ha _]. rewrite Ha in Hw.
  destruct par as [|c par'] eqn:Epar; [left; done|right].
  rewrite <- Epar in *.
  assert (par = removelast par ++ [List.last par RootDir]) as Hsplit
    by (apply app_removelast_last; subst; done).
  rewrite Hsplit, inits_snoc, <- Hsplit, walk_app in Hw.
  destruct (walk f (inits (removelast par))) as [e|[]] eqn:Hw1; [done|].
  simpl in Hw. destruct (f !! key par) as [[]|] eqn:Hk; try done.
  assert (symlink_metadata f par = Some NDir) as Hs.
  { unfold symlink_metadata. rewrite Epar. rewrite <- Epar.
    unfold ancestors. rewrite Hsplit at 1. rewrite inits_snoc, removelast_last.
    rewrite Hw1. done. }
  unfold is_file, is_dir, metadata. simpl. rewrite Hs. done.
Qed.

Lemma prepare_parent_present (it : Entry) (p : Path) (w : World) (n : Node) :
  symlink_metadata (fs w) p = Some n -> prepare_parent it p w = (inr tt, w).
Proof.
  intros Hs. unfold prepare_parent.
  destruct (parent p) as [par|] eqn:Hp; [|done].
  destruct (parent_of_present _ _ _ _ Hs Hp) as [(-> & Hf & Hd)|(Hf & Hd)].
  - cbv [bind probe ret io]. cbn -[is_file is_dir create_dir_all].
    rewrite Hf. cbn -[is_file is_dir create_dir_all]. rewrite Hd.
    cbn. rewrite set_fs_same. done.
  - cbv [bind probe ret io]. cbn -[is_file is_dir create_dir_all].
    rewrite Hf. cbn -[is_file is_dir create_dir_all]. rewrite Hd. done.
Qed.

(** Overwriting a file, or a link whose target exists, replaces just
    that path by the new link. *)
Lemma overwrite_and_link_present (it : Entry) (p : Path) (w : World) (n : Node) :
  symlink_metadata (fs w) p = Some n -> n <> NDir -> exists_ (fs w) p = true ->
  overwrite_and_link it p w =
  (inr tt, set_fs (<[key p := NLink (local it)]> (fs w)) w).
Proof.
  intros Hs Hn Hex.
  pose proof Hs as (Hne & Hw & Hk)%symlink_metadata_Some.
  assert (io (fun f0 => symlink f0 (local it) p) (set_fs (delete (key p) (fs w)) w) =
          (inr tt, set_fs (<[key p := NLink (local it)]> (fs w)) w)) as Hsym.
  { unfold io. cbn [fs set_fs].
    rewrite symlink_absent; [|done|by apply (walk_delete _ _ _ n)|by rewrite lookup_delete_eq].
    by rewrite insert_delete_eq. }
  unfold overwrite_and_link. cbv [bind probe ret].
  destruct (is_dir (fs w) p) eqn:Hd.
  - (* a link to a directory: [remove_dir_all] unlinks it *)
    assert (exists t, n = NLink t) as [t ->].
    { unfold is_dir, metadata in Hd. cbn [metadata_go] in Hd. rewrite Hs in Hd.
      destruct n; [done|done|by eexists]. }
    unfold io at 1. unfold remove_dir_all. rewrite Hs.
    rewrite (remove_file_present _ _ _ Hs Hn). exact Hsym.
  - assert (is_file (fs w) p = true) as Hf.
    { unfold exists_, is_dir, is_file in *.
      destruct (metadata (fs w) p) as [[]|] eqn:Hm; try done.
      exfalso. by apply (metadata_go_not_link 41 (fs w) p target). }
    rewrite Hf. unfold io at 1.
    rewrite (remove_file_present _ _ _ Hs Hn). exact Hsym.
Qed.

(** X10: when a remote is pre-authorized (or [overwrite_all] is set)
    and holds a file or a link whose target exists, the link step asks
    nothing and replaces exactly that path with a link to the storage
    copy: every other path, the old link's target included, is left as
    it was. *)
Theorem authorized_relink_replaces_only_remote (ow : list string) (owall : bool)
    (it : Entry) (w : World) (n : Node)
    (Hat : symlink_metadata (fs w) (components (remote it)) = Some n)
    (Hnd : n <> NDir)
    (Hres : exists_ (fs w) (components (remote it)) = true)
    (Hauth : owall = true \/ remote it ∈ ow) :
  link_entry ow owall it w =
  (inr (owall, true),
   set_fs (<[key (components (remote it)) := NLink (local it)]> (fs w)) w).
Proof.
  rewrite link_entry_authorized by done. unfold bind at 1.
  rewrite (overwrite_and_link_present _ _ _ n) by done. done.
Qed.

Lemma authorized_relink_replaces_only_remote_witness :
  link_entry [] true LockFixtures.bashrc LockFixtures.added_world =
  (inr (true, true),
   set_fs (<["/h/.bashrc" := NLink "/st/bundle/shell/bashrc"]> LockFixtures.home_fs)
          LockFixtures.added_world).
Proof.
  apply (authorized_relink_replaces_only_remote [] true LockFixtures.bashrc
           LockFixtures.added_world (NLink "/st/bundle/shell/bashrc"));
    [reflexivity|discriminate|reflexivity|left; reflexivity].
Defined.

(** X11: a remote that is a dangling link makes the link pass fail
    with [AlreadyExists] as soon as it is reached: [exists] reports it
    absent, so [symlink] is tried over it. Nothing is asked, nothing
    changes, and the entries after it are not processed. Dangling here
    means: the link holds an absolute target with no [..] component,
    no directory on the way to the target is a symlink, and nothing is
    at the target. *)
Theorem dangling_remote_aborts_pass (ow : list string) (it : Entry)
    (rest acc : list Entry) (owall : bool) (w : World) (t : string)
    (Hlink : symlink_metadata (fs w) (components (remote it)) = Some (NLink t))
    (Hrabs : starts_with (remote it) "/" = true)
    (Hrnp : Forall (fun c => c <> ParentDir) (components (remote it)))
    (Htabs : starts_with t "/" = true)
    (Htnp : Forall (fun c => c <> ParentDir) (components t))
    (Htanc : Forall (fun q => forall u, fs w !! key q <> Some (NLink u))
               (ancestors (components t)))
    (Hgone : symlink_metadata (fs w) (components t) = None) :
  link_loop ow (it :: rest) owall acc w = (inl (IoError AlreadyExists), w).
Proof.
  assert (Hex : exists_ (fs w) (components (remote it)) = false).
  { unfold exists_, metadata. cbn [metadata_go]. rewrite Hlink.
    cbn [metadata_go]. by rewrite Hgone. }
  pose proof Hlink as (Hne & Hw & Hk)%symlink_metadata_Some.
  cbn [link_loop]. unfold bind at 1. unfold link_entry.
  unfold bind at 1. rewrite (prepare_parent_present _ _ _ _ Hlink).
  cbv [bind probe]. rewrite Hex.
  unfold io. unfold symlink.
  destruct (components (remote it)) as [|c p] eqn:Ep; [done|].
  rewrite Hw, Hk. rewrite set_fs_same. done.
Qed.

Lemma dangling_remote_aborts_pass_witness :
  link_loop [] [LinkFixtures.x_entry; LockFixtures.bashrc] false [] EdgeFixtures.dangling_world =
  (inl (IoError AlreadyExists), EdgeFixtures.dangling_world).
Proof.
  apply (dangling_remote_aborts_pass [] LinkFixtures.x_entry [LockFixtures.bashrc] [] false
           EdgeFixtures.dangling_world "/gone/x"); try reflexivity;
    vm_compute; repeat (constructor; [intros ?; try intros ?; discriminate|]);
    constructor.
Defined.

(** X12: when nothing is at a remote and its parent is a directory, the
    link step asks nothing, creates the link to the storage copy there,
    records the entry, and changes no other path. *)
Theorem free_remote_is_linked (ow : list string) (owall : bool) (it : Entry)
    (w : World) (par : Path)
    (Hpar : parent (components (remote it)) = Some par)
    (Hdir : symlink_metadata (fs w) par = Some NDir)
    (Hfree : symlink_metadata (fs w) (components (remote it)) = None) :
  link_entry ow owall it w =
  (inr (owall, true),
   set_fs (<[key (components (remote it)) := NLink (local it)]> (fs w)) w).
Proof.
  set (p := components (remote it)) in *.
  destruct (ancestors_of_parent _ _ Hpar) as [Ha Hp].
  assert (walk (fs w) (ancestors p) = inr tt) as Hw by (rewrite Ha; by apply walk_inits_dir).
  assert (p <> []) as Hne by (rewrite Hp; by destruct par).
  assert (fs w !! key p = None) as Hk.
  { unfold symlink_metadata in Hfree. destruct p; [done|]. by rewrite Hw in Hfree. }
  assert (is_file (fs w) par = false /\ is_dir (fs w) par = true) as [Hf Hd].
  { unfold is_file, is_dir, metadata. simpl. by rewrite Hdir. }
  assert (exists_ (fs w) p = false) as Hex.
  { unfold exists_, metadata. simpl. by rewrite Hfree. }
  unfold link_entry. fold p. unfold prepare_parent. rewrite Hpar.
  cbv [bind probe ret io]. cbn -[is_file is_dir exists_ create_dir_all symlink].
  rewrite Hf. cbn -[is_file is_dir exists_ create_dir_all symlink].
  rewrite Hd. cbn -[is_file is_dir exists_ create_dir_all symlink].
  rewrite Hex. cbn -[is_file is_dir exists_ create_dir_all symlink].
  rewrite symlink_absent by done. done.
Qed.

Lemma free_remote_is_linked_witness :
  link_entry [] false LinkFixtures.x_entry EdgeFixtures.free_world =
  (inr (false, true),
   set_fs (<["/h/.x" := NLink "/st/x"]> EdgeFixtures.free_home) EdgeFixtures.free_world).
Proof.
  apply (free_remote_is_linked [] false LinkFixtures.x_entry EdgeFixtures.free_world
           (components "/h")); reflexivity.
Defined.

(** X13: the entries [link] returns are a sublist of the bundle's
    entries, in the bundle's order. *)
Theorem link_returns_sublist (bundle : Bundle) (ow : list string) (owall : bool)
    (w w' : World) (res : list Entry)
    (H : link bundle ow owall w = (inr res, w')) :
  sublist res (entries bundle).
Proof.
  unfold link in H. apply link_loop_result in H as [l [-> Hl]]. done.
Qed.

Lemma link_returns_sublist_witness :
  link {| id := "dots"; entries := [LinkFixtures.x_entry] |} [] false EdgeFixtures.free_world =
    (inr [LinkFixtures.x_entry],
     (link {| id := "dots"; entries := [LinkFixtures.x_entry] |} [] false
        EdgeFixtures.free_world).2) /\
  sublist [LinkFixtures.x_entry] [LinkFixtures.x_entry].
Proof.
  split; [reflexivity|].
  apply (link_returns_sublist {| id := "dots"; entries := [LinkFixtures.x_entry] |} [] false
           EdgeFixtures.free_world
           (link {| id := "dots"; entries := [LinkFixtures.x_entry] |} [] false
              EdgeFixtures.free_world).2).
  reflexivity.
Defined.

End LinkMore.

(* ------------------------------------------------------------------ *)
(** ** The lock after [cmd_link] *)
Module LockMore.
Import RustPath Os Dotgirl LinkFacts LinkSteps LockFixtures.
Local Open Scope list_scope.

Lemma filter_retained_none (bs : list Bundle) (name : string) :
  filter (fun b => id b = name) (filter (fun it => String.eqb (id it) name = false) bs) = [].
Proof.
  induction bs as [|b bs IH]; [done|]. rewrite filter_cons.
  destruct (String.eqb_spec (id b) name) as [E|E].
  - rewrite decide_False by done. done.
  - rewrite decide_True by done. rewrite filter_cons, decide_False by done. done.
Qed.

Lemma filter_retained_others (bs : list Bundle) (name : string) :
  filter (fun b => id b <> name) (filter (fun it => String.eqb (id it) name = false) bs) =
  filter (fun b => id b <> name) bs.
Proof.
  induction bs as [|b bs IH]; [done|]. rewrite (filter_cons _ b bs).
  rewrite (filter_cons (fun b => id b <> name) b bs).
  destruct (String.eqb_spec (id b) name) as [E|E].
  - rewrite decide_False by done. rewrite decide_False by (intros H; by apply H). done.
  - rewrite decide_True by done. rewrite filter_cons, !decide_True by done. by rewrite IH.
Qed.

(** X14: after a successful [cmd_link name] on a bundle whose metadata
    carries that id, the lock holds exactly one record for [name]: the
    last one, listing a sublist of the bundle's entries; the records of
    every other bundle are kept, in their order. *)
Theorem cmd_link_single_record (name : string) (w w' : World) (bundle : Bundle)
    (Hb : bundle_dirs w !! name = Some (Some bundle)) (Hid : id bundle = name)
    (Hok : cmd_link name w = (inr tt, w')) :
  exists l linked,
    lock_file w' = Some l /\
    count_id l name = 1 /\
    last (bundles l) = Some {| id := name; entries := linked |} /\
    sublist linked (entries bundle) /\
    filter (fun r => id r <> name) (bundles l) =
    filter (fun r => id r <> name) (bundles (default {| bundles := [] |} (lock_file w))).
Proof.
  rewrite cmd_link_found with (bundle := bundle) in Hok by done.
  unfold bind in Hok.
  destruct (link bundle _ false w) as [[e|linked] w1] eqn:Hl; [done|].
  unfold write_lockfile in Hok. injection Hok as <-.
  set (lock := default {| bundles := [] |} (lock_file w)).
  exists (relink_lock lock name bundle linked), linked.
  unfold relink_lock; cbn [lock_file set_store bundles].
  split; [done|]. split.
  - unfold count_id. cbn [bundles]. rewrite filter_app, filter_retained_none.
    rewrite filter_cons, decide_True by (simpl; done). done.
  - split; [rewrite Hid; apply last_snoc|]. split.
    + unfold link in Hl. apply link_loop_result in Hl as [l [-> Hsub]]. done.
    + rewrite filter_app, filter_retained_others, filter_cons, decide_False
        by (simpl; by intros H). rewrite app_nil_r. done.
Qed.

Lemma cmd_link_single_record_witness :
  exists l linked,
    lock_file (cmd_link "shell" added_world).2 = Some l /\
    count_id l "shell" = 1 /\
    last (bundles l) = Some {| id := "shell"; entries := linked |}.
Proof.
  destruct (cmd_link_single_record "shell" added_world (cmd_link "shell" added_world).2
              {| id := "shell"; entries := [bashrc] |})
    as (l & linked & H1 & H2 & H3 & _); [reflexivity|reflexivity|reflexivity|].
  exists l, linked. split; [done|]. split; done.
Defined.

End LockMore.

(* ------------------------------------------------------------------ *)
(** ** [OsFilesystem::remove] *)
Module OsDiskMore.
Import RustStr RustPath Os OsFacts LinkMore.

(** X15: for an absolute path with no [..] component,
    [OsFilesystem::remove] on a symlink removes only the link, whatever
    it points to (a directory target is not entered, since
    [remove_dir_all] unlinks a link); on a path where nothing is and no
    directory on the way is a symlink, it fails and changes nothing. *)
Theorem os_remove_link_or_missing (f : Fs) (path : string)
    (Habs : starts_with path "/" = true)
    (Hnp : Forall (fun c => c <> ParentDir) (components path)) :
  (forall t, symlink_metadata f (components path) = Some (NLink t) ->
     OsDisk.remove f path = (inr tt, delete (key (components path)) f)) /\
  (Forall (fun q => forall u, f !! key q <> Some (NLink u)) (ancestors (components path)) ->
   symlink_metadata f (components path) = None ->
     (OsDisk.remove f path).1 <> inr tt /\ (OsDisk.remove f path).2 = f).
Proof.
  unfold OsDisk.remove. split.
  - intros t Hs. destruct (is_dir f (components path)).
    + unfold remove_dir_all. rewrite Hs. by apply (remove_file_present _ _ (NLink t)).
    + by apply (remove_file_present _ _ (NLink t)).
  - intros _ Hs.
    assert (is_dir f (components path) = false) as -> by
      (unfold is_dir, metadata; cbn [metadata_go]; by rewrite Hs).
    unfold remove_file. unfold symlink_metadata in Hs.
    destruct (components path) as [|c p]; [done|].
    destruct (walk f (ancestors (c :: p))) as [e|[]]; [done|]. by rewrite Hs.
Qed.

Lemma os_remove_link_or_missing_witness :
  OsDisk.remove LockFixtures.home_fs "/h/.bashrc" =
    (inr tt, delete "/h/.bashrc" LockFixtures.home_fs) /\
  (OsDisk.remove LockFixtures.home_fs "/h/none").2 = LockFixtures.home_fs.
Proof.
  destruct (os_remove_link_or_missing LockFixtures.home_fs "/h/.bashrc") as [H1 _];
    [reflexivity|vm_compute; repeat (constructor; [intros ?; discriminate|]);
                 constructor|].
  destruct (os_remove_link_or_missing LockFixtures.home_fs "/h/none") as [_ H2];
    [reflexivity|vm_compute; repeat (constructor; [intros ?; discriminate|]);
                 constructor|].
  split.
  - apply (H1 "/st/bundle/shell/bashrc"). reflexivity.
  - apply H2; [|reflexivity].
    vm_compute. repeat (constructor; [intros ? ?; discriminate|]). constructor.
Defined.

End OsDiskMore.

(* ------------------------------------------------------------------ *)
(** ** The link engine on a remote that is a directory *)
Module LinkDirMore.
Import RustStr RustPath Os Dotgirl OsFacts LinkFacts LinkSteps LinkMore MemoryPreds MemoryMore.
Local Open Scope list_scope.

Lemma removelast_map {A B} (f : A -> B) (l : list A) :
  removelast (map f l) = map f (removelast l).
Proof.
  induction l as [|x l IH]; [done|]. destruct l as [|y l]; [done|].
  simpl in *. by rewrite IH.
Qed.

Lemma removelast_inits_cons {A} (x : A) (p : list A) :
  p <> [] -> removelast (inits (x :: p)) = [x] :: map (cons x) (removelast (inits p)).
Proof.
  intros Hp. destruct p as [|y p']; [done|].
  change (inits (x :: y :: p')) with ([x] :: map (cons x) (inits (y :: p'))).
  rewrite <- removelast_map.
  change (inits (y :: p')) with ([y] :: map (cons y) (inits p')).
  done.
Qed.

(** A proper ancestor is a non-empty proper prefix. *)
Lemma ancestors_split (p q : Path) :
  q ∈ ancestors p -> q <> [] /\ exists r, r <> [] /\ p = q ++ r.
Proof.
  unfold ancestors. revert q. induction p as [|x p IH]; intros q Hq.
  - simpl in Hq. set_solver.
  - destruct (decide (p = [])) as [->|Hp].
    + simpl in Hq. set_solver.
    + rewrite removelast_inits_cons in Hq by done.
      apply elem_of_cons in Hq as [->|Hq].
      * split; [done|]. exists p. done.
      * apply list_elem_of_In, in_map_iff in Hq as (q' & <- & Hq').
        apply list_elem_of_In in Hq'.
        destruct (IH q' Hq') as (_ & r & Hr & ->). split; [done|]. exists r. done.
Qed.

Lemma string_length_append (s1 s2 : string) :
  String.length (String.append s1 s2) = String.length s1 + String.length s2.
Proof. induction s1 as [|c s1 IH]; simpl; [done|]. by rewrite IH. Qed.

Lemma starts_with_length (s pat : string) :
  starts_with s pat = true -> String.length pat <= String.length s.
Proof.
  revert s. induction pat as [|c pat IH]; intros [|d s]; simpl; try (done || lia).
  intros H. apply andb_prop in H as [_ H]. apply IH in H. lia.
Qed.

Lemma push_longer (buf part : string) :
  part <> "" -> starts_with part "/" = false ->
  String.length buf < String.length (push buf part).
Proof.
  intros Hne Hs. unfold push. rewrite Hs.
  destruct part as [|c part]; [done|].
  destruct (String.eqb buf "" || ends_with_slash buf);
    rewrite !string_length_append; simpl; lia.
Qed.

Lemma fold_push_longer (r : list Component) (buf : string) :
  Forall (fun c => as_os_str c <> "" /\ starts_with (as_os_str c) "/" = false) r ->
  r <> [] ->
  String.length buf < String.length (fold_left (fun b c => push b (as_os_str c)) r buf).
Proof.
  revert buf. induction r as [|c r IH]; intros buf Hr Hne; [done|].
  inversion Hr as [|? ? [Hc1 Hc2] Hr']; subst. simpl.
  pose proof (push_longer buf (as_os_str c) Hc1 Hc2).
  destruct r as [|c' r']; [simpl; lia|].
  specialize (IH (push buf (as_os_str c)) Hr' ltac:(done)). lia.
Qed.

Lemma omap_parse_no_root (l : list string) :
  Forall (fun c => c <> RootDir) (omap parse_segment l).
Proof.
  induction l as [|x l IH]; simpl; [constructor|]. unfold parse_segment.
  destruct (String.eqb x ""); [done|]. destruct (String.eqb x "."); [done|].
  destruct (String.eqb x ".."); by constructor.
Qed.

(** After the first one, the components of a path are names that are
    not empty and do not start with a separator. *)
Lemma components_tail (s : string) (c : Component) (cs : list Component) :
  components s = c :: cs ->
  Forall (fun c => as_os_str c <> "" /\ starts_with (as_os_str c) "/" = false) cs.
Proof.
  intros H.
  pose proof (components_sep_free s) as Hsf. rewrite H in Hsf.
  inversion Hsf as [|? ? _ Hcs]; subst.
  assert (Forall (fun c => c <> RootDir) cs) as Hnr.
  { pose proof (omap_parse_no_root (split_slash s)) as HO.
    unfold components in H.
    destruct (starts_with s "/"); [by injection H as _ <-|].
    destruct (String.eqb s "." || starts_with s "./"); [by injection H as _ <-|].
    simpl in H. rewrite H in HO. by inversion HO. }
  clear H Hsf. induction cs as [|c' cs IH]; [constructor|].
  inversion Hcs as [|? ? Hc' Hcs']; inversion Hnr as [|? ? Hn' Hnr']; subst.
  constructor; [|by apply IH].
  destruct Hc' as [->|(H1 & _ & H3)]; done.
Qed.

(** No proper ancestor of a parsed path lies in the subtree of the
    path: its key is shorter. *)
Lemma ancestor_outside_subtree (s : string) (q : Path) :
  q ∈ ancestors (components s) -> in_subtree (key (components s)) (key q) = false.
Proof.
  intros Hq. destruct (ancestors_split _ _ Hq) as (Hqne & r & Hr & Hs).
  destruct q as [|c q']; [done|].
  pose proof (components_tail s c (q' ++ r) Hs) as Ht.
  apply Forall_app in Ht as [_ Hrt].
  assert (String.length (key (c :: q')) < String.length (key (components s))) as Hlt.
  { rewrite Hs. unfold key, build. rewrite fold_left_app. by apply fold_push_longer. }
  unfold in_subtree. apply orb_false_intro.
  - destruct (String.eqb_spec (key (c :: q')) (key (components s))) as [E|]; [|done].
    rewrite E in Hlt. lia.
  - destruct (starts_with (key (c :: q')) _) eqn:E; [|done].
    apply starts_with_length in E.
    destruct (ends_with_slash (key (components s))); [lia|].
    rewrite string_length_append in E. lia.
Qed.

Lemma walk_filter_subtree (f : Fs) (d : string) (qs : list Path) :
  Forall (fun q => in_subtree d (key q) = false) qs ->
  walk f qs = inr tt ->
  walk (filter (fun kv => in_subtree d kv.1 = false) f) qs = inr tt.
Proof.
  induction qs as [|q qs IH]; intros Hq Hw; [done|].
  inversion Hq as [|? ? Hq1 Hqs]; subst. simpl in *.
  destruct (f !! key q) as [[]|] eqn:Hk; try done.
  rewrite (map_lookup_filter_Some_2 _ _ _ NDir Hk) by done. by apply IH.
Qed.

(** Overwriting a directory: [remove_dir_all] removes it with its whole
    subtree, then the link takes its place. *)
Lemma overwrite_and_link_dir (it : Entry) (s : string) (w : World) :
  symlink_metadata (fs w) (components s) = Some NDir ->
  overwrite_and_link it (components s) w =
  (inr tt, set_fs (<[key (components s) := NLink (local it)]>
                   (filter (fun kv => in_subtree (key (components s)) kv.1 = false) (fs w))) w).
Proof.
  intros Hs. pose proof Hs as (Hne & Hw & Hk)%symlink_metadata_Some.
  assert (is_dir (fs w) (components s) = true) as Hd.
  { unfold is_dir, metadata. cbn [metadata_go]. by rewrite Hs. }
  unfold overwrite_and_link. cbv [bind probe ret]. rewrite Hd.
  unfold io at 1. unfold remove_dir_all. rewrite Hs. cbn [fs set_fs].
  unfold io. cbn [fs set_fs].
  rewrite symlink_absent; [done|done| |].
  - apply walk_filter_subtree; [|done].
    apply Forall_forall. intros q Hq. by apply ancestor_outside_subtree.
  - apply map_lookup_filter_None_2. right. intros x _. simpl.
    unfold in_subtree. by rewrite String.eqb_refl.
Qed.

(** X16: when a remote is pre-authorized (or [overwrite_all] is set)
    and is a directory, the link step asks nothing, deletes that
    directory with everything under it, and puts the link to the
    storage copy in its place; paths outside that subtree are kept. *)
Theorem authorized_relink_removes_directory (ow : list string) (owall : bool)
    (it : Entry) (w : World)
    (Hdir : symlink_metadata (fs w) (components (remote it)) = Some NDir)
    (Hauth : owall = true \/ remote it ∈ ow) :
  link_entry ow owall it w =
  (inr (owall, true),
   set_fs (<[key (components (remote it)) := NLink (local it)]>
           (filter (fun kv => in_subtree (key (components (remote it))) kv.1 = false) (fs w)))
          w).
Proof.
  assert (exists_ (fs w) (components (remote it)) = true) as Hex.
  { unfold exists_, metadata. cbn [metadata_go]. by rewrite Hdir. }
  rewrite link_entry_authorized by done. unfold bind at 1.
  rewrite overwrite_and_link_dir by done. done.
Qed.

Lemma authorized_relink_removes_directory_witness :
  (link_entry [] true EdgeFixtures.cfg_entry EdgeFixtures.dir_world).1 = inr (true, true) /\
  fs (link_entry [] true EdgeFixtures.cfg_entry EdgeFixtures.dir_world).2 =
    <["/h/.cfg" := NLink "/st/cfg"]>
      (<["/h/.cfgx" := NFile "other"]> (<["/h" := NDir]> (<["/" := NDir]> ∅))).
Proof.
  rewrite (authorized_relink_removes_directory [] true EdgeFixtures.cfg_entry
             EdgeFixtures.dir_world); [|reflexivity|left; reflexivity].
  split; [reflexivity|]. vm_compute. reflexivity.
Defined.

End LinkDirMore.

(* ------------------------------------------------------------------ *)
(** [cmd_add]: the symlink filter, the entries, the records *)
Module AddMore.
Import RustStr RustPath Os Dotgirl Add LinkFacts.
Local Open Scope list_scope.

Lemma skip_symlinks_world (ps : list string) (w : World) :
  (skip_symlinks ps w).2 = w.
Proof.
  induction ps as [|p ps IH]; [done|]. simpl. unfold bind, probe.
  destruct (symlink_metadata (fs w) (components p)) as [[| |t]|]; simpl; try done;
    destruct (skip_symlinks ps w) as [[e|k] w1]; simpl in IH |- *; by subst.
Qed.

Lemma skip_symlinks_ok (ps kept : list string) (w w1 : World) :
  skip_symlinks ps w = (inr kept, w1) ->
  kept = List.filter (fun p => match symlink_metadata (fs w) (components p) with
                               | Some (NLink _) => false | _ => true end) ps.
Proof.
  revert kept w1. induction ps as [|p ps IH]; intros kept w1 H.
  - simpl in H. by injection H as <-.
  - simpl in H |- *. unfold bind, probe in H.
    destruct (symlink_metadata (fs w) (components p)) as [[| |t]|]; simpl in H.
    + destruct (skip_symlinks ps w) as [[e|k] w2] eqn:E; [done|].
      injection H as <- _. f_equal. by eapply IH.
    + destruct (skip_symlinks ps w) as [[e|k] w2] eqn:E; [done|].
      injection H as <- _. f_equal. by eapply IH.
    + by eapply IH.
    + done.
Qed.

Lemma bind_ret_value {A B} (m : M A) (v : B) (w w1 : World) (e : B) :
  bind m (fun _ => ret v) w = (inr e, w1) -> e = v.
Proof. unfold bind, ret. destruct (m w) as [[x|x] w']; simpl; congruence. Qed.

Lemma add_entry_shape dc fc (bp r : string) (w w1 : World) (e : Entry) :
  add_entry dc fc bp r w = (inr e, w1) ->
  remote e = r /\ exists n, Name.get_name r = inr n /\ local e = push bp n.
Proof.
  unfold add_entry. destruct (Name.get_name r) as [[s]|n]; [done|].
  intros H. apply bind_ret_value in H as ->. simpl. eauto.
Qed.

(** What leaves the [lock.toml] and the bundle files alone. *)
Lemma keeps_ret {A} (a : A) (w : World) :
  (lock_file (ret a w).2, bundle_dirs (ret a w).2) = (lock_file w, bundle_dirs w).
Proof. done. Qed.

Lemma keeps_probe {A} (q : Fs -> A) (w : World) :
  (lock_file (probe q w).2, bundle_dirs (probe q w).2) = (lock_file w, bundle_dirs w).
Proof. done. Qed.

Lemma keeps_io {A} (op : Fs -> (ErrorKind + A) * Fs) (w : World) :
  (lock_file (io op w).2, bundle_dirs (io op w).2) = (lock_file w, bundle_dirs w).
Proof. unfold io. by destruct (op (fs w)) as [[]]. Qed.

Lemma keeps_confirm (r p : string) (w : World) :
  (lock_file (confirm r p w).2, bundle_dirs (confirm r p w).2) = (lock_file w, bundle_dirs w).
Proof. unfold confirm. by destruct (answers w) as [|[]]. Qed.

Lemma keeps_select (r : string) (w : World) :
  (lock_file (select r w).2, bundle_dirs (select r w).2) = (lock_file w, bundle_dirs w).
Proof. unfold select. by destruct (answers w) as [|[]]. Qed.

Lemma keeps_bind {A B} (m : M A) (k : A -> M B) :
  (forall w, (lock_file (m w).2, bundle_dirs (m w).2) = (lock_file w, bundle_dirs w)) ->
  (forall a w, (lock_file (k a w).2, bundle_dirs (k a w).2) = (lock_file w, bundle_dirs w)) ->
  forall w, (lock_file (bind m k w).2, bundle_dirs (bind m k w).2) = (lock_file w, bundle_dirs w).
Proof.
  intros Hm Hk w. unfold bind. specialize (Hm w).
  destruct (m w) as [[e|a] w'] eqn:E; simpl in *; [done|]. by rewrite Hk.
Qed.

Ltac keeps :=
  repeat first
    [ apply keeps_bind; [|intros ?]
    | intros ?
    | apply keeps_ret | apply keeps_probe | apply keeps_io
    | apply keeps_confirm | apply keeps_select
    | match goal with |- context [if ?b then _ else _] => destruct b end ].

Lemma keeps_prepare_parent (it : Entry) (p : Path) (w : World) :
  (lock_file (prepare_parent it p w).2, bundle_dirs (prepare_parent it p w).2) =
  (lock_file w, bundle_dirs w).
Proof. revert w. unfold prepare_parent. destruct (parent p); keeps. Qed.

Lemma keeps_overwrite_and_link (it : Entry) (p : Path) (w : World) :
  (lock_file (overwrite_and_link it p w).2, bundle_dirs (overwrite_and_link it p w).2) =
  (lock_file w, bundle_dirs w).
Proof. revert w. unfold overwrite_and_link. keeps. Qed.

Lemma keeps_link_entry (ow : list string) (owall : bool) (it : Entry) (w : World) :
  (lock_file (link_entry ow owall it w).2, bundle_dirs (link_entry ow owall it w).2) =
  (lock_file w, bundle_dirs w).
Proof.
  revert w. unfold link_entry.
  apply keeps_bind; [apply keeps_prepare_parent|intros ?].
  apply keeps_bind; [apply keeps_probe|intros ex].
  destruct ex; [destruct (_ && _)|].
  - apply keeps_bind; [apply keeps_select|intros [|[|[|n]]]];
      try apply keeps_ret;
      apply keeps_bind; try apply keeps_overwrite_and_link; intros ?; apply keeps_ret.
  - apply keeps_bind; [apply keeps_overwrite_and_link|intros ?; apply keeps_ret].
  - apply keeps_bind; [apply keeps_io|intros ?; apply keeps_ret].
Qed.

Lemma keeps_link_loop (ow : list string) (es : list Entry) (owall : bool)
    (acc : list Entry) (w : World) :
  (lock_file (link_loop ow es owall acc w).2, bundle_dirs (link_loop ow es owall acc w).2) =
  (lock_file w, bundle_dirs w).
Proof.
  revert owall acc w. induction es as [|it es IH]; intros owall acc w; [done|].
  simpl. apply keeps_bind; [apply keeps_link_entry|intros ? ?; apply IH].
Qed.

Lemma keeps_add_entries dc fc (bp : string) (rs : list string) (w : World) :
  (lock_file (add_entries dc fc bp rs w).2, bundle_dirs (add_entries dc fc bp rs w).2) =
  (lock_file w, bundle_dirs w).
Proof.
  revert w. induction rs as [|r rs IH]; intros w; [done|]. simpl.
  assert (Hk : (lock_file (add_entry dc fc bp r w).2, bundle_dirs (add_entry dc fc bp r w).2) =
               (lock_file w, bundle_dirs w)).
  { unfold add_entry. destruct (Name.get_name r) as [[s]|n]; [done|]. revert w. keeps. }
  destruct (add_entry dc fc bp r w) as [[err|e] w1]; simpl in Hk; rewrite <- Hk; [apply IH|].
  apply (keeps_bind (add_entries dc fc bp rs) (fun rest => ret (e :: rest)));
    [apply IH|intros ? ?; apply keeps_ret].
Qed.

Lemma add_entries_ok dc fc (bp : string) (rs : list string) (w : World) :
  exists es, (add_entries dc fc bp rs w).1 = inr es /\
    sublist (map remote es) rs /\
    Forall (fun e => exists n, Name.get_name (remote e) = inr n /\ local e = push bp n) es.
Proof.
  revert w. induction rs as [|r rs IH]; intros w.
  - exists []. split; [done|]. split; constructor.
  - simpl. destruct (add_entry dc fc bp r w) as [[err|e] w1] eqn:E.
    + destruct (IH w1) as (es & H1 & H2 & H3). exists es.
      split; [done|]. split; [by constructor|done].
    + apply add_entry_shape in E as [Hr Hn].
      destruct (IH w1) as (es & H1 & H2 & H3). unfold bind.
      destruct (add_entries dc fc bp rs w1) as [[x|es'] w2]; simpl in H1; [done|].
      injection H1 as ->. exists (e :: es). split; [done|]. split.
      * simpl. rewrite Hr. by constructor.
      * constructor; [by rewrite Hr|done].
Qed.

(** X17: before anything is created, [cmd_add] keeps exactly the inputs
    that are not symbolic links, in their order, when every input is
    there; when some input is missing it panics with ["Failed to get
    metadata"], with the filesystem untouched. *)
Theorem add_skips_symlinks (ps : list string) (w : World) :
  (Forall (fun p => symlink_metadata (fs w) (components p) <> None) ps ->
   skip_symlinks ps w =
     (inr (List.filter (fun p => match symlink_metadata (fs w) (components p) with
                                 | Some (NLink _) => false | _ => true end) ps), w)) /\
  (Exists (fun p => symlink_metadata (fs w) (components p) = None) ps ->
   skip_symlinks ps w = (inl (Panic "Failed to get metadata"), w)).
Proof.
  induction ps as [|p ps [IH1 IH2]]; simpl.
  - split; [done|]. intros H. inversion H.
  - unfold bind, probe. simpl. split.
    + intros H. inversion H as [|? ? Hp Hps]; subst.
      destruct (symlink_metadata (fs w) (components p)) as [[| |t]|]; simpl;
        try rewrite (IH1 Hps); done.
    + intros H. destruct (symlink_metadata (fs w) (components p)) as [[| |t]|] eqn:Ep; simpl.
      * inversion H as [? ? Hp|? ? Hps]; subst; [congruence|]. by rewrite (IH2 Hps).
      * inversion H as [? ? Hp|? ? Hps]; subst; [congruence|]. by rewrite (IH2 Hps).
      * inversion H as [? ? Hp|? ? Hps]; subst; [congruence|]. by apply IH2.
      * done.
Qed.

Lemma add_skips_symlinks_witness :
  skip_symlinks ["/h/.x"; "/h"] EdgeFixtures.dangling_world =
    (inr ["/h"], EdgeFixtures.dangling_world) /\
  skip_symlinks ["/h"; "/h/none"; "/h/.x"] EdgeFixtures.dangling_world =
    (inl (Panic "Failed to get metadata"), EdgeFixtures.dangling_world).
Proof.
  split.
  - rewrite (proj1 (add_skips_symlinks ["/h/.x"; "/h"] EdgeFixtures.dangling_world));
      [reflexivity|].
    repeat constructor; vm_compute; intros H; discriminate H.
  - apply (proj2 (add_skips_symlinks ["/h"; "/h/none"; "/h/.x"] EdgeFixtures.dangling_world)).
    apply Exists_cons_tl, Exists_cons_hd. vm_compute. reflexivity.
Defined.


(** X19: after a successful [cmd_add storage name ps], the bundle's
    metadata lists entries whose remotes are a sublist of the inputs
    that are not symbolic links, each stored at
    [storage/bundle/name/get_name(remote)]; the lock keeps its earlier
    records and gains one last record for [name], with a sublist of
    those entries. *)
Theorem cmd_add_records_bundle dc fc (storage name : string) (ps : list string)
    (w w' : World) (Hok : cmd_add dc fc storage name ps w = (inr tt, w')) :
  exists es linked,
    bundle_dirs w' !! name = Some (Some {| id := name; entries := es |}) /\
    sublist (map remote es)
      (List.filter (fun p => match symlink_metadata (fs w) (components p) with
                             | Some (NLink _) => false | _ => true end) ps) /\
    Forall (fun e => exists n, Name.get_name (remote e) = inr n /\
                     local e = push (push (push storage "bundle") name) n) es /\
    lock_file w' =
      Some {| bundles := bundles (default {| bundles := [] |} (lock_file w)) ++
                         [{| id := name; entries := linked |}] |} /\
    sublist linked es.
Proof.
  unfold cmd_add, get_lockfile in Hok. unfold bind at 1 in Hok.
  unfold bind at 1 in Hok.
  destruct (skip_symlinks ps w) as [[e|kept] w1] eqn:Hs; [done|].
  pose proof (skip_symlinks_world ps w) as Hw1. rewrite Hs in Hw1. simpl in Hw1. subst w1.
  apply skip_symlinks_ok in Hs. rewrite <- Hs.
  set (bp := push (push storage "bundle") name) in *.
  set (lock := default {| bundles := [] |} (lock_file w)) in *.
  unfold bind at 1, probe in Hok. unfold bind at 1 in Hok.
  match type of Hok with
  | context [(if ?b then ret tt else ?m) ?w0] =>
      pose proof (keeps_io (fun f => create_dir_all f (components bp)) w0) as Hk2;
      destruct ((if b then ret tt else m) w0) as [[e|[]] w2] eqn:Hd; [done|]
  end.
  assert (Hk2' : (lock_file w2, bundle_dirs w2) = (lock_file w, bundle_dirs w)).
  { destruct (is_dir (fs w) (components bp)); simpl in Hd.
    - by injection Hd as <-.
    - by rewrite Hd in Hk2. }
  clear Hk2 Hd. unfold bind at 1 in Hok.
  destruct (add_entries_ok dc fc bp kept w2) as (es & Hes & Hsub & Hloc).
  pose proof (keeps_add_entries dc fc bp kept w2) as Hk3.
  destruct (add_entries dc fc bp kept w2) as [[x|es'] w3]; simpl in Hes, Hk3; [done|].
  injection Hes as ->.
  unfold cmd_add_finish, get_lockfile in Hok. unfold bind at 1 in Hok.
  unfold bind at 1 in Hok. simpl in Hok. unfold bind in Hok.
  match type of Hok with
  | context [link ?b ?o ?t ?w4] =>
      pose proof (keeps_link_loop o (entries b) t [] w4) as Hk4;
      destruct (link b o t w4) as [[x|linked] w5] eqn:Hl; [done|]
  end.
  unfold link in Hl. rewrite Hl in Hk4. simpl in Hk4.
  unfold write_lockfile in Hok. injection Hok as <-.
  apply link_loop_result in Hl as [l [Hl Hsubl]]. simpl in Hl. subst l.
  exists es, linked. cbn [bundle_dirs lock_file set_store].
  injection Hk4 as _ Hb4. rewrite Hb4. cbn [bundle_dirs set_store].
  split; [apply lookup_insert_eq|]. split; [done|]. split; [done|]. split; [|done].
  injection Hk3 as Hl3 _. injection Hk2' as Hl2 _. rewrite Hl3, Hl2. done.
Qed.

Lemma cmd_add_records_bundle_witness :
  exists es linked,
    bundle_dirs (cmd_add (fun f _ _ => (inr tt, f)) (fun f _ _ => (inr tt, f))
                   "/st" "b" ["/h/.cfgx"] EdgeFixtures.dir_world).2 !! "b" =
      Some (Some {| id := "b"; entries := es |}) /\
    sublist linked es.
Proof.
  destruct (cmd_add_records_bundle (fun f _ _ => (inr tt, f)) (fun f _ _ => (inr tt, f))
              "/st" "b" ["/h/.cfgx"] EdgeFixtures.dir_world
              (cmd_add (fun f _ _ => (inr tt, f)) (fun f _ _ => (inr tt, f))
                 "/st" "b" ["/h/.cfgx"] EdgeFixtures.dir_world).2)
    as (es & linked & H1 & _ & _ & _ & H5); [vm_compute; reflexivity|].
  exists es, linked. split; [exact H1|exact H5].
Defined.

End AddMore.
